(** * stats.c: column statistics over row-major matrices of doubles

    A shallow embedding of [src/stats.c].  The C functions work on
    caller-owned buffers through [double *] pointers, so the embedding
    threads an explicit machine state (memory, standard output, the C
    library's pseudo-random stream) through a small state-and-fault monad:

    - a [double] is a binary64 value, Rocq's primitive [float], with the
      IEEE operations of [PrimFloat];
    - an [int] is a [Z] kept inside the 32-bit signed range: an operation
      whose result leaves the range is undefined behaviour, a fault here;
    - memory is a finite map from blocks (array objects) to their
      contents; a pointer is a block and an offset counted in doubles, and
      an access outside the block is undefined behaviour, a fault here;
    - [for (i = 0; i < n; i++)] is iteration over [0 .. n-1];
    - the text [printf] gives a NaN depends on the NaN's sign bit, which a
      primitive [float] does not have: printing a NaN is a fault here too. *)

From Stdlib Require Import ZArith Floats Ascii String DecimalString.
From stdpp Require Import gmap list.

Local Open Scope Z_scope.
Set Warnings "-inexact-float".

(** ** Machine integers and doubles *)

Definition INT_MAX : Z := 2147483647.
Definition INT_MIN : Z := -2147483648.

Definition in_int (z : Z) : Prop := INT_MIN ≤ z ≤ INT_MAX.

Global Instance in_int_dec z : Decision (in_int z).
Proof. unfold in_int. apply _. Defined.

Abbreviation double := float (only parsing).

(** Conversion [(double) z] of an [int]. *)
Definition of_int (z : Z) : double :=
  if decide (0 ≤ z) then PrimFloat.of_uint63 (Uint63.of_Z z)
  else PrimFloat.opp (PrimFloat.of_uint63 (Uint63.of_Z (- z))).

(** ** Memory *)

Record ptr := Ptr { blk : positive; off : Z }.

Global Instance ptr_eq_dec : EqDecision ptr.
Proof. solve_decision. Defined.

(** Pointer arithmetic [p + k] on a [double *]. *)
Definition padd (p : ptr) (k : Z) : ptr := Ptr (blk p) (off p + k).
Infix "+ₚ" := padd (at level 50, left associativity).

Abbreviation heap := (gmap positive (list float)) (only parsing).

Definition rd (h : heap) (p : ptr) : option double :=
  match h !! blk p with
  | Some l => if decide (0 ≤ off p) then l !! Z.to_nat (off p) else None
  | None => None
  end.

(** The heap after [*p = v]; the caller checks that [p] is in bounds. *)
Definition upd (h : heap) (p : ptr) (v : double) : heap :=
  match h !! blk p with
  | Some l => <[blk p := <[Z.to_nat (off p) := v]> l]> h
  | None => h
  end.

(** ** Machine state, faults and the monad of C statements *)

Inductive event := Load (p : ptr) | Store (p : ptr).

Global Instance event_eq_dec : EqDecision event.
Proof. solve_decision. Defined.

Record world := World {
  mem : gmap positive (list float);   (* the array objects *)
  trace : list event;                 (* memory accesses so far, latest first *)
  out : string;                       (* characters written to stdout, in order *)
  rng : nat → Z;                      (* the values successive rand() calls return *)
  drawn : nat                         (* how many rand() calls were made *)
}.

(** Where the model stops: an access outside an object, an [int] result out
    of range, or the printing of a NaN (its text, "nan" or "-nan", follows
    the NaN's sign bit, which the one NaN of this model does not have). *)
Inductive fault :=
  | BadLoad (p : ptr)
  | BadStore (p : ptr)
  | IntOverflow (z : Z)
  | NanText.

Inductive result (A : Type) :=
  | Ok (a : A) (w : world)
  | Fault (f : fault).
Arguments Ok {A} a w.
Arguments Fault {A} f.

Definition M (A : Type) : Type := world → result A.

Global Instance M_ret : MRet M := λ A a w, Ok a w.
Global Instance M_bind : MBind M := λ A B f c w,
  match c w with
  | Ok a w' => f a w'
  | Fault e => Fault e
  end.

Definition fail {A} (e : fault) : M A := λ _, Fault e.

Definition log (e : event) (w : world) : world :=
  World (mem w) (e :: trace w) (out w) (rng w) (drawn w).

Definition load (p : ptr) : M double := λ w,
  match rd (mem w) p with
  | Some v => Ok v (log (Load p) w)
  | None => Fault (BadLoad p)
  end.

Definition store (p : ptr) (v : double) : M unit := λ w,
  match rd (mem w) p with
  | Some _ => Ok tt (World (upd (mem w) p v) (Store p :: trace w) (out w) (rng w) (drawn w))
  | None => Fault (BadStore p)
  end.

(** The result of an [int] operation: undefined outside the range. *)
Definition int_val (z : Z) : M Z :=
  if decide (in_int z) then mret z else fail (IntOverflow z).

Definition imul (x y : Z) : M Z := int_val (x * y).
Definition iadd (x y : Z) : M Z := int_val (x + y).
Definition isub (x y : Z) : M Z := int_val (x - y).

(** [for (i = lo; i < lo + n; i++) body]. *)
Fixpoint for_aux (n : nat) (lo : Z) (body : Z → M unit) : M unit :=
  match n with
  | O => mret tt
  | S n' => body lo ;; for_aux n' (lo + 1) body
  end.

(** [for (i = 0; i < hi; i++) body]. *)
Definition for_lt (hi : Z) (body : Z → M unit) : M unit :=
  for_aux (Z.to_nat hi) 0 body.

(** ** The functions of stats.c *)

Definition stat_mean (a mean : ptr) (dim_i dim_j : Z) : M unit :=
  (* initialize the mean vector *)
  for_lt dim_j (λ j, store (mean +ₚ j) (of_int 0)) ;;
  (* Sum of each column *)
  for_lt dim_i (λ i,
    n ← imul i dim_j;
    for_lt dim_j (λ j,
      m ← load (mean +ₚ j);
      k ← iadd j n;
      x ← load (a +ₚ k);
      store (mean +ₚ j) (PrimFloat.add m x))) ;;
  (* Divide to get average *)
  for_lt dim_j (λ j,
    m ← load (mean +ₚ j);
    store (mean +ₚ j) (PrimFloat.div m (of_int dim_i))).

Definition stat_std (a mean std : ptr) (dim_i dim_j : Z) : M unit :=
  (* initialize the std vector *)
  for_lt dim_j (λ j, store (std +ₚ j) (of_int 0)) ;;
  (* Sum of each column *)
  for_lt dim_i (λ i,
    n ← imul i dim_j;
    for_lt dim_j (λ j,
      s ← load (std +ₚ j);
      k1 ← iadd j n;
      x1 ← load (a +ₚ k1);
      m1 ← load (mean +ₚ j);
      k2 ← iadd j n;
      x2 ← load (a +ₚ k2);
      m2 ← load (mean +ₚ j);
      store (std +ₚ j)
        (PrimFloat.add s (PrimFloat.mul (PrimFloat.sub x1 m1) (PrimFloat.sub x2 m2))))) ;;
  (* Divide to get average *)
  for_lt dim_j (λ j,
    s ← load (std +ₚ j);
    d ← isub dim_i 1;
    store (std +ₚ j) (PrimFloat.div s (of_int d)) ;;
    s' ← load (std +ₚ j);
    store (std +ₚ j) (PrimFloat.sqrt s')).

Definition remove_mean_col (a mean b : ptr) (dim_i dim_j : Z) : M unit :=
  for_lt dim_i (λ i,
    for_lt dim_j (λ j,
      (* Substraction of the mean of the column from the value *)
      n ← imul i dim_j;
      k ← iadd n j;
      x ← load (a +ₚ k);
      m ← load (mean +ₚ j);
      n' ← imul i dim_j;
      k' ← iadd n' j;
      store (b +ₚ k') (PrimFloat.sub x m))).

Definition modify_mean_stddev (mtx : ptr) (new_mean new_stddev : double)
    (dim_i dim_j : Z) : M unit :=
  for_lt dim_i (λ i,
    for_lt dim_j (λ j,
      n ← imul i dim_j;
      k ← iadd n j;
      x ← load (mtx +ₚ k);
      n' ← imul i dim_i;
      k' ← iadd n' j;
      store (mtx +ₚ k') (PrimFloat.add (PrimFloat.mul x new_stddev) new_mean))).

(** The local [Twopi] of [randn]: the double nearest to the source's literal. *)
Definition Twopi : double :=
  6.2831853071795864769252867665590057683943387987502%float.  (* 2 * pi *)

(** [rand()]: the next value of the C library's pseudo-random stream. *)
Definition rand : M Z := λ w,
  Ok (rng w (drawn w)) (World (mem w) (trace w) (out w) (rng w) (S (drawn w))).

Section libc.
(** The C library is not part of the repository: [RAND_MAX] of
    <stdlib.h> and [log], [cos] of <math.h> are parameters. *)
Variable RAND_MAX : Z.
Variables log cos : double → double.

Definition randn : M double :=
  let randmax := of_int RAND_MAX in
  r ← rand;
  let random := of_int r in
  (* Calculates a normally distributed random number *)
  let random := PrimFloat.div random randmax in
  let randnorm := PrimFloat.sqrt (PrimFloat.mul (-2)%float (log random)) in
  let randnorm := PrimFloat.mul randnorm (cos (PrimFloat.mul Twopi random)) in
  mret randnorm.

Definition randn_mtx (mtx : ptr) (dim_i dim_j : Z) : M unit :=
  for_lt dim_i (λ i,
    for_lt dim_j (λ j,
      (* Generates a matrix of normally distributed random number *)
      x ← randn;
      n ← imul i dim_j;
      k ← iadd n j;
      store (mtx +ₚ k) x)).
End libc.

(** ** Standard output *)

Definition putstr (s : string) : M unit := λ w,
  Ok tt (World (mem w) (trace w) (out w ++ s) (rng w) (drawn w)).

Definition newline : string := String (ascii_of_nat 10) EmptyString.

Fixpoint pad_left (c : ascii) (width : nat) (s : string) : string :=
  match width with
  | O => s
  | S n => if decide (String.length s < width)%nat then String c (pad_left c n s) else s
  end.

Definition decimal (n : N) : string := NilZero.string_of_uint (N.to_uint n).

(** The integer nearest to [m * 2^e * 10^5], ties to even. *)
Definition scale5 (m : positive) (e : Z) : N :=
  let num := (Z.pos m * 100000)%Z in
  if decide (0 ≤ e) then Z.to_N (num * 2 ^ e)
  else
    let den := 2 ^ (- e) in
    let q := num / den in
    let r := num mod den in
    Z.to_N (if decide (2 * r < den) then q
            else if decide (den < 2 * r) then q + 1
            else if Z.even q then q else q + 1).

Definition minus_sign (s : bool) : string := if s then "-" else "".

Definition fixed5 (n : N) : string :=
  decimal (n / 100000) ++ "." ++ pad_left "0" 5 (decimal (n mod 100000)).

(** Modelled from the spec: [printf] belongs to the C library, which is not
    part of the repository.  This is its conversion ["%2.5f"]: decimal
    notation "fixed at 5 fractional digits, minimum field width 2", the
    exact binary value rounded to the nearest decimal, ties to even.  A NaN
    has no text here: the library prints "nan" or "-nan" by its sign bit. *)
Definition fmt_2_5f (x : double) : option string :=
  match Prim2SF x with
  | S754_nan => None
  | S754_infinity s => Some (pad_left " " 2 (minus_sign s ++ "inf"))
  | S754_zero s => Some (pad_left " " 2 (minus_sign s ++ fixed5 0))
  | S754_finite s m e => Some (pad_left " " 2 (minus_sign s ++ fixed5 (scale5 m e)))
  end.

(** [printf("%2.5f ", x)]. *)
Definition printf_2_5f (x : double) : M unit :=
  match fmt_2_5f x with
  | Some s => putstr (s ++ " ")
  | None => fail NanText
  end.

Definition show_matrix (A : ptr) (dim_i dim_j : Z) : M unit :=
  (* Displays every element of the matrix *)
  for_lt dim_i (λ i,
    for_lt dim_j (λ j,
      n ← imul i dim_j;
      k ← iadd n j;
      x ← load (A +ₚ k);
      printf_2_5f x) ;;
    putstr newline).

(** * Reasoning about the embedding *)

(** ** Memory *)

Lemma padd_inj p k k' : p +ₚ k = p +ₚ k' → k = k'.
Proof. destruct p as [b o]. unfold padd. simpl. intros H. injection H. lia. Qed.

Lemma padd_ne p k k' : k ≠ k' → p +ₚ k ≠ p +ₚ k'.
Proof. intros Hne Heq. apply Hne. eapply padd_inj, Heq. Qed.

Lemma rd_upd_eq (h : heap) p v : is_Some (rd h p) → rd (upd h p v) p = Some v.
Proof.
  unfold rd, upd. destruct (h !! blk p) as [l|] eqn:Hb; [|by intros [? ?]].
  rewrite lookup_insert_eq. case_decide; [|by intros [? ?]].
  intros [x Hx]. apply list_lookup_insert_eq. by eapply lookup_lt_Some.
Qed.

Lemma rd_upd_ne (h : heap) p q v :
  is_Some (rd h p) → q ≠ p → rd (upd h p v) q = rd h q.
Proof.
  unfold rd, upd. destruct (h !! blk p) as [l|] eqn:Hb; [|done].
  case_decide as Hp; [|by intros [? ?]]. intros _ Hne.
  destruct (decide (blk q = blk p)) as [Hbq|Hbq].
  - rewrite Hbq, lookup_insert_eq, Hb. case_decide as Hq; [|done].
    apply list_lookup_insert_ne. intros Hn. apply Hne.
    destruct p, q. simpl in *. f_equal; [done|]. lia.
  - by rewrite lookup_insert_ne.
Qed.

Lemma rd_upd_is_Some (h : heap) p q v :
  is_Some (rd h p) → is_Some (rd (upd h p v) q) ↔ is_Some (rd h q).
Proof.
  intros Hp. destruct (decide (q = p)) as [->|Hne].
  - rewrite rd_upd_eq by done. split; [done|]. by eexists.
  - by rewrite rd_upd_ne.
Qed.

(** ** Counting the accesses of a trace *)

Definition nloads (p : ptr) (t : list event) : nat := count_occ event_eq_dec t (Load p).
Definition nstores (p : ptr) (t : list event) : nat := count_occ event_eq_dec t (Store p).

Lemma nloads_load p q t :
  nloads p (Load q :: t) = ((if decide (q = p) then 1 else 0) + nloads p t)%nat.
Proof.
  unfold nloads. case_decide as H.
  - subst. by rewrite count_occ_cons_eq.
  - rewrite count_occ_cons_neq; [done|congruence].
Qed.

Lemma nloads_store p q t : nloads p (Store q :: t) = nloads p t.
Proof. unfold nloads. by rewrite count_occ_cons_neq. Qed.

Lemma nstores_store p q t :
  nstores p (Store q :: t) = ((if decide (q = p) then 1 else 0) + nstores p t)%nat.
Proof.
  unfold nstores. case_decide as H.
  - subst. by rewrite count_occ_cons_eq.
  - rewrite count_occ_cons_neq; [done|congruence].
Qed.

Lemma nstores_load p q t : nstores p (Load q :: t) = nstores p t.
Proof. unfold nstores. by rewrite count_occ_cons_neq. Qed.

Lemma nloads_app p t1 t2 : nloads p (t1 ++ t2) = (nloads p t1 + nloads p t2)%nat.
Proof. apply count_occ_app. Qed.

Lemma nstores_app p t1 t2 : nstores p (t1 ++ t2) = (nstores p t1 + nstores p t2)%nat.
Proof. apply count_occ_app. Qed.

(** ** Outcomes of a statement

    [outcome c w Q E]: run from [w], [c] either returns a value and a state
    satisfying [Q], or stops on a fault satisfying [E].  [wp c w Q] is total
    correctness: [c] returns, in a state where [Q] holds. *)

Definition outcome {A} (c : M A) (w : world) (Q : A → world → Prop) (E : fault → Prop) : Prop :=
  match c w with
  | Ok a w' => Q a w'
  | Fault f => E f
  end.

Definition wp {A} (c : M A) (w : world) (Q : A → world → Prop) : Prop :=
  outcome c w Q (λ _, False).

Lemma outcome_ret {A} (a : A) w Q E : Q a w → outcome (mret a) w Q E.
Proof. done. Qed.

Lemma outcome_bind {A B} (c : M A) (f : A → M B) w Q E :
  outcome c w (λ a w', outcome (f a) w' Q E) E → outcome (c ≫= f) w Q E.
Proof. unfold outcome, mbind, M_bind. by destruct (c w). Qed.

Lemma outcome_mono {A} (c : M A) w (Q Q' : A → world → Prop) (E E' : fault → Prop) :
  outcome c w Q E → (∀ a w', Q a w' → Q' a w') → (∀ f, E f → E' f) → outcome c w Q' E'.
Proof. unfold outcome. destruct (c w); eauto. Qed.

Lemma outcome_load p v w Q E :
  rd (mem w) p = Some v → Q v (log (Load p) w) → outcome (load p) w Q E.
Proof. intros Hrd HQ. unfold outcome, load. by rewrite Hrd. Qed.

Lemma outcome_store p v w Q E :
  is_Some (rd (mem w) p) →
  Q tt (World (upd (mem w) p v) (Store p :: trace w) (out w) (rng w) (drawn w)) →
  outcome (store p v) w Q E.
Proof. intros [x Hrd] HQ. unfold outcome, store. by rewrite Hrd. Qed.

Lemma outcome_store_fault p v w (Q : unit → world → Prop) (E : fault → Prop) :
  rd (mem w) p = None → E (BadStore p) → outcome (store p v) w Q E.
Proof. intros Hrd HE. unfold outcome, store. by rewrite Hrd. Qed.

Lemma outcome_int_val z w Q E : in_int z → Q z w → outcome (int_val z) w Q E.
Proof. intros Hz HQ. unfold outcome, int_val. by rewrite decide_True. Qed.

Lemma outcome_for_aux (I : Z → world → Prop) n lo body w Q E :
  I lo w →
  (∀ i w', lo ≤ i < lo + Z.of_nat n → I i w' → outcome (body i) w' (λ _, I (i + 1)) E) →
  (∀ w', I (lo + Z.of_nat n) w' → Q tt w') →
  outcome (for_aux n lo body) w Q E.
Proof.
  revert lo w. induction n as [|n IH]; intros lo w H0 Hstep HQ.
  - apply outcome_ret. apply HQ. by replace (lo + Z.of_nat 0) with lo by lia.
  - simpl. apply outcome_bind. eapply outcome_mono; [apply Hstep; [lia|done]| |done].
    intros [] w' Hw'. apply IH; [done| |].
    + intros i w'' Hi. apply Hstep. lia.
    + intros w''. replace (lo + 1 + Z.of_nat n) with (lo + Z.of_nat (S n)) by lia.
      apply HQ.
Qed.

Lemma outcome_for_lt (I : Z → world → Prop) hi body w Q E :
  0 ≤ hi → I 0 w →
  (∀ i w', 0 ≤ i < hi → I i w' → outcome (body i) w' (λ _, I (i + 1)) E) →
  (∀ w', I hi w' → Q tt w') →
  outcome (for_lt hi body) w Q E.
Proof.
  intros Hhi H0 Hstep HQ. unfold for_lt. apply (outcome_for_aux I); [done| |].
  - intros i w' Hi. apply Hstep. lia.
  - intros w'. rewrite Z2Nat.id by done. apply HQ.
Qed.

Lemma wp_returns {A} (c : M A) w Q : wp c w Q → ∃ a w', c w = Ok a w' ∧ Q a w'.
Proof. unfold wp, outcome. destruct (c w) as [a w'|]; [eauto|done]. Qed.

Lemma wp_ret {A} (a : A) w Q : Q a w → wp (mret a) w Q.
Proof. apply outcome_ret. Qed.

Lemma wp_bind {A B} (c : M A) (f : A → M B) w Q :
  wp c w (λ a w', wp (f a) w' Q) → wp (c ≫= f) w Q.
Proof. apply outcome_bind. Qed.

Lemma wp_mono {A} (c : M A) w (Q Q' : A → world → Prop) :
  wp c w Q → (∀ a w', Q a w' → Q' a w') → wp c w Q'.
Proof. intros H HQ. by eapply outcome_mono. Qed.

Lemma wp_load p v w Q :
  rd (mem w) p = Some v → Q v (log (Load p) w) → wp (load p) w Q.
Proof. apply outcome_load. Qed.

Lemma wp_store p v w Q :
  is_Some (rd (mem w) p) →
  Q tt (World (upd (mem w) p v) (Store p :: trace w) (out w) (rng w) (drawn w)) →
  wp (store p v) w Q.
Proof. apply outcome_store. Qed.

Lemma wp_int_val z w Q : in_int z → Q z w → wp (int_val z) w Q.
Proof. apply outcome_int_val. Qed.

Lemma wp_for_lt (I : Z → world → Prop) hi body w Q :
  0 ≤ hi → I 0 w →
  (∀ i w', 0 ≤ i < hi → I i w' → wp (body i) w' (λ _, I (i + 1))) →
  (∀ w', I hi w' → Q tt w') →
  wp (for_lt hi body) w Q.
Proof. apply outcome_for_lt. Qed.

(** ** What a call leaves alone *)

(** [within p n q]: [q] is one of the [n] cells of the buffer at [p]. *)
Definition within (p : ptr) (n : Z) (q : ptr) : Prop := ∃ k, 0 ≤ k < n ∧ q = p +ₚ k.

(** [frame R w0 w]: between [w0] and [w] only cells in [R] were written, no
    object was created or resized, and nothing was printed or drawn. *)
Record frame (R : ptr → Prop) (w0 w : world) : Prop := Frame {
  frame_rd : ∀ q, ¬ R q → rd (mem w) q = rd (mem w0) q;
  frame_alloc : ∀ q, is_Some (rd (mem w) q) ↔ is_Some (rd (mem w0) q);
  frame_trace : ∃ evs, trace w = evs ++ trace w0 ∧ ∀ q, In (Store q) evs → R q;
  frame_out : out w = out w0;
  frame_rng : rng w = rng w0;
  frame_drawn : drawn w = drawn w0
}.

Lemma frame_refl R w : frame R w w.
Proof. split; try done. exists []. split; [done|]. intros q []. Qed.

Lemma frame_load R w0 w p : frame R w0 w → frame R w0 (log (Load p) w).
Proof.
  intros [Hrd Hal (evs & Ht & Hst) Ho Hr Hd]. split; try done.
  exists (Load p :: evs). simpl. rewrite Ht. split; [done|].
  intros q [Hq|Hq]; [done|by apply Hst].
Qed.

Lemma frame_store R w0 w p v :
  frame R w0 w → R p → is_Some (rd (mem w) p) →
  frame R w0 (World (upd (mem w) p v) (Store p :: trace w) (out w) (rng w) (drawn w)).
Proof.
  intros [Hrd Hal (evs & Ht & Hst) Ho Hr Hd] HR Hp. split; try done; simpl.
  - intros q Hq. rewrite rd_upd_ne; [by apply Hrd|done|]. by intros ->.
  - intros q. by rewrite rd_upd_is_Some, Hal.
  - exists (Store p :: evs). rewrite Ht. split; [done|].
    intros q [Hq|Hq]; [congruence|by apply Hst].
Qed.

Lemma frame_trans R w0 w1 w2 : frame R w0 w1 → frame R w1 w2 → frame R w0 w2.
Proof.
  intros [Hrd Hal (evs & Ht & Hst) Ho Hr Hd] [Hrd' Hal' (evs' & Ht' & Hst') Ho' Hr' Hd'].
  split; try congruence.
  - intros q Hq. by rewrite Hrd', Hrd.
  - intros q. by rewrite Hal', Hal.
  - exists (evs' ++ evs). rewrite Ht', Ht, app_assoc. split; [done|].
    intros q [Hq|Hq]%in_app_or; eauto.
Qed.

(** ** The specification's column formulas

    Sums run over the rows in increasing order, starting from 0, in binary64
    arithmetic. [A k] is the matrix element at row-major offset [k]. *)

Section columns.
Variable A : Z → double.
Variable dim_j : Z.

(** The sum of the first [rows] elements of column [j]. *)
Fixpoint col_sum (j : Z) (rows : nat) : double :=
  match rows with
  | O => PrimFloat.zero
  | S n => PrimFloat.add (col_sum j n) (A (Z.of_nat n * dim_j + j))
  end.

Definition col_mean (dim_i j : Z) : double :=
  PrimFloat.div (col_sum j (Z.to_nat dim_i)) (of_int dim_i).

Variable mean : Z → double.

(** The sum of squared deviations of the first [rows] elements of column [j]. *)
Fixpoint col_sqsum (j : Z) (rows : nat) : double :=
  match rows with
  | O => PrimFloat.zero
  | S n =>
      let d := PrimFloat.sub (A (Z.of_nat n * dim_j + j)) (mean j) in
      PrimFloat.add (col_sqsum j n) (PrimFloat.mul d d)
  end.

Definition col_std (dim_i j : Z) : double :=
  PrimFloat.sqrt (PrimFloat.div (col_sqsum j (Z.to_nat dim_i)) (of_int (dim_i - 1))).
End columns.

(** ** stat_mean *)

Section stat_mean_correct.
Variables (a mean : ptr) (dim_i dim_j : Z) (A : Z → double) (w0 : world).
Hypothesis Hi : 1 ≤ dim_i.
Hypothesis Hj : 1 ≤ dim_j.
Hypothesis Hsize : dim_i * dim_j ≤ INT_MAX.
Hypothesis Ha : ∀ k, 0 ≤ k < dim_i * dim_j → rd (mem w0) (a +ₚ k) = Some (A k).
Hypothesis Hm : ∀ j, 0 ≤ j < dim_j → is_Some (rd (mem w0) (mean +ₚ j)).
Hypothesis Hdisj : ∀ k j, 0 ≤ k < dim_i * dim_j → 0 ≤ j < dim_j → a +ₚ k ≠ mean +ₚ j.

Let R := within mean dim_j.

Lemma a_not_in_mean k : 0 ≤ k < dim_i * dim_j → ¬ R (a +ₚ k).
Proof. intros Hk (j & Hj' & Heq). by eapply Hdisj. Qed.

(** While the columns are added up, row [i] being done up to column [j]:
    every column holds its partial sum, and the elements before (i, j) were
    read once. *)
Definition summing (i j : Z) (w : world) : Prop :=
  frame R w0 w ∧
  (∀ j', 0 ≤ j' < dim_j →
     rd (mem w) (mean +ₚ j') =
       Some (col_sum A dim_j j' (Z.to_nat (if decide (j' < j) then i + 1 else i)))) ∧
  (∀ k, 0 ≤ k < dim_i * dim_j →
     nloads (a +ₚ k) (trace w) =
       Nat.add (if decide (k < i * dim_j + j) then 1%nat else 0%nat) (nloads (a +ₚ k) (trace w0))).

Lemma stat_mean_init :
  wp (for_lt dim_j (λ j, store (mean +ₚ j) (of_int 0))) w0 (λ _, summing 0 0).
Proof.
  apply (wp_for_lt (λ j w, frame R w0 w ∧
    (∀ j', 0 ≤ j' < j → rd (mem w) (mean +ₚ j') = Some PrimFloat.zero) ∧
    (∀ q, nloads q (trace w) = nloads q (trace w0)))); [lia| | |].
  - split; [apply frame_refl|]. split; [intros; lia|done].
  - intros j w Hjr (Hf & Hz & Hl).
    assert (is_Some (rd (mem w) (mean +ₚ j))) as Hs by (apply Hf; auto).
    apply wp_store; [done|]. split; [|split]; simpl.
    + apply frame_store; [done| |done]. by exists j.
    + intros j' Hj'. destruct (decide (j' = j)) as [->|Hne].
      * by rewrite rd_upd_eq.
      * rewrite rd_upd_ne; [apply Hz; lia|done|by apply padd_ne].
    + intros q. by rewrite nloads_store.
  - intros w (Hf & Hz & Hl). split; [done|]. split.
    + intros j' Hj'. rewrite decide_False by lia. by apply Hz.
    + intros k Hk. rewrite decide_False by lia. apply Hl.
Qed.

Lemma stat_mean_row i w :
  0 ≤ i < dim_i → summing i 0 w →
  wp (n ← imul i dim_j;
      for_lt dim_j (λ j,
        m ← load (mean +ₚ j);
        k ← iadd j n;
        x ← load (a +ₚ k);
        store (mean +ₚ j) (PrimFloat.add m x))) w (λ _, summing (i + 1) 0).
Proof.
  intros Hir Hw. apply wp_bind, wp_int_val; [unfold in_int, INT_MIN; nia|].
  apply (wp_for_lt (summing i)); [lia|done| |].
  - clear w Hw. intros j w Hjr (Hf & Hv & Hl).
    assert (0 ≤ i * dim_j + j < dim_i * dim_j) as Hk by nia.
    apply wp_bind. eapply wp_load; [by apply Hv|].
    apply wp_bind, wp_int_val; [unfold in_int, INT_MIN; lia|].
    apply wp_bind. eapply wp_load.
    { simpl. replace (j + i * dim_j) with (i * dim_j + j) by lia.
      rewrite (frame_rd _ _ _ Hf) by by apply a_not_in_mean. by apply Ha. }
    apply wp_store.
    { simpl. apply Hf, Hm. lia. }
    split; [|split].
    + apply frame_store; [by do 2 apply frame_load|by exists j|].
      simpl. apply Hf, Hm. lia.
    + simpl. intros j' Hj'. destruct (decide (j' = j)) as [->|Hne].
      * rewrite rd_upd_eq by (simpl; apply Hf, Hm; lia).
        rewrite decide_False, decide_True by lia.
        replace (Z.to_nat (i + 1)) with (S (Z.to_nat i)) by lia.
        simpl. by rewrite Z2Nat.id by lia.
      * rewrite rd_upd_ne; [|simpl; apply Hf, Hm; lia|by apply padd_ne].
        rewrite Hv by done. do 3 f_equal. repeat case_decide; lia.
    + simpl. intros k Hkr. rewrite nloads_store, nloads_load, nloads_load, Hl by done.
      rewrite (decide_False (P := mean +ₚ j = a +ₚ k)) by (intros Heq; by eapply Hdisj).
      replace (j + i * dim_j) with (i * dim_j + j) by lia.
      destruct (decide (k = i * dim_j + j)) as [->|Hne].
      * rewrite decide_True by done. repeat case_decide; lia.
      * rewrite (decide_False (P := a +ₚ _ = a +ₚ k)) by (intros Heq%padd_inj; lia).
        repeat case_decide; lia.
  - intros w' (Hf & Hv & Hl). split; [done|]. split.
    + intros j' Hj'. rewrite Hv by done. do 3 f_equal. repeat case_decide; lia.
    + intros k Hk. rewrite Hl by done. repeat case_decide; lia.
Qed.

Lemma stat_mean_full :
  wp (stat_mean a mean dim_i dim_j) w0 (λ _ w,
    frame R w0 w ∧
    (∀ j, 0 ≤ j < dim_j → rd (mem w) (mean +ₚ j) = Some (col_mean A dim_j dim_i j)) ∧
    (∀ k, 0 ≤ k < dim_i * dim_j →
       nloads (a +ₚ k) (trace w) = S (nloads (a +ₚ k) (trace w0)))).
Proof.
  unfold stat_mean. apply wp_bind. eapply wp_mono; [apply stat_mean_init|].
  intros [] w1 Hw1. apply wp_bind.
  apply (wp_for_lt (λ i, summing i 0)); [lia|done|apply stat_mean_row|].
  clear w1 Hw1. intros w2 (Hf & Hv & Hl).
  apply (wp_for_lt (λ j w, frame R w0 w ∧
    (∀ j', 0 ≤ j' < dim_j → rd (mem w) (mean +ₚ j') =
       Some (if decide (j' < j) then col_mean A dim_j dim_i j'
             else col_sum A dim_j j' (Z.to_nat dim_i))) ∧
    (∀ k, 0 ≤ k < dim_i * dim_j →
       nloads (a +ₚ k) (trace w) = S (nloads (a +ₚ k) (trace w0))))); [lia| | |].
  - split; [done|]. split.
    + intros j' Hj'. rewrite Hv by done. by rewrite !decide_False by lia.
    + intros k Hk. rewrite Hl by done. by rewrite decide_True by lia.
  - clear w2 Hf Hv Hl. intros j w Hjr (Hf & Hv & Hl).
    apply wp_bind. eapply wp_load; [by apply Hv|].
    apply wp_store; [simpl; apply Hf, Hm; lia|].
    split; [|split].
    + apply frame_store; [by apply frame_load|by exists j|simpl; apply Hf, Hm; lia].
    + simpl. intros j' Hj'. destruct (decide (j' = j)) as [->|Hne].
      * rewrite rd_upd_eq by (simpl; apply Hf, Hm; lia).
        by rewrite decide_False, decide_True by lia.
      * rewrite rd_upd_ne; [|simpl; apply Hf, Hm; lia|by apply padd_ne].
        rewrite Hv by done. f_equal. repeat case_decide; try done; lia.
    + simpl. intros k Hkr. rewrite nloads_store, nloads_load, Hl by done.
      by rewrite decide_False by (intros Heq; by eapply Hdisj).
  - clear w2 Hf Hv Hl. intros w (Hf & Hv & Hl). split; [done|]. split; [|done].
    intros j Hjr. by rewrite Hv, decide_True by lia.
Qed.
End stat_mean_correct.
(** ** stat_std *)

Section stat_std_correct.
Variables (a mean std : ptr) (dim_i dim_j : Z) (A Mn : Z → double) (w0 : world).
Hypothesis Hi : 1 ≤ dim_i.
Hypothesis Hj : 1 ≤ dim_j.
Hypothesis Hsize : dim_i * dim_j ≤ INT_MAX.
Hypothesis Ha : ∀ k, 0 ≤ k < dim_i * dim_j → rd (mem w0) (a +ₚ k) = Some (A k).
Hypothesis Hmean : ∀ j, 0 ≤ j < dim_j → rd (mem w0) (mean +ₚ j) = Some (Mn j).
Hypothesis Hs : ∀ j, 0 ≤ j < dim_j → is_Some (rd (mem w0) (std +ₚ j)).
Hypothesis Hdisj_a : ∀ k j, 0 ≤ k < dim_i * dim_j → 0 ≤ j < dim_j → a +ₚ k ≠ std +ₚ j.
Hypothesis Hdisj_m : ∀ j' j, 0 ≤ j' < dim_j → 0 ≤ j < dim_j → mean +ₚ j' ≠ std +ₚ j.

Let R := within std dim_j.

Lemma a_not_in_std k : 0 ≤ k < dim_i * dim_j → ¬ R (a +ₚ k).
Proof. intros Hk (j & Hj' & Heq). exact (Hdisj_a k j Hk Hj' Heq). Qed.

Lemma mean_not_in_std j : 0 ≤ j < dim_j → ¬ R (mean +ₚ j).
Proof. intros Hk (j' & Hj' & Heq). exact (Hdisj_m j j' Hk Hj' Heq). Qed.

(** While the squared deviations are added up, row [i] being done up to
    column [j]. *)
Definition squaring (i j : Z) (w : world) : Prop :=
  frame R w0 w ∧
  (∀ j', 0 ≤ j' < dim_j →
     rd (mem w) (std +ₚ j') =
       Some (col_sqsum A dim_j Mn j' (Z.to_nat (if decide (j' < j) then i + 1 else i)))).

Lemma stat_std_init :
  wp (for_lt dim_j (λ j, store (std +ₚ j) (of_int 0))) w0 (λ _, squaring 0 0).
Proof.
  apply (wp_for_lt (λ j w, frame R w0 w ∧
    (∀ j', 0 ≤ j' < j → rd (mem w) (std +ₚ j') = Some PrimFloat.zero))); [lia| | |].
  - split; [apply frame_refl|]. intros; lia.
  - intros j w Hjr (Hf & Hz).
    assert (is_Some (rd (mem w) (std +ₚ j))) as Hsj by (apply Hf; auto).
    apply wp_store; [done|]. split.
    + apply frame_store; [done| |done]. by exists j.
    + simpl. intros j' Hj'. destruct (decide (j' = j)) as [->|Hne].
      * by rewrite rd_upd_eq.
      * rewrite rd_upd_ne; [apply Hz; lia|done|by apply padd_ne].
  - intros w (Hf & Hz). split; [done|].
    intros j' Hj'. rewrite decide_False by lia. by apply Hz.
Qed.

Lemma stat_std_row i w :
  0 ≤ i < dim_i → squaring i 0 w →
  wp (n ← imul i dim_j;
      for_lt dim_j (λ j,
        s ← load (std +ₚ j);
        k1 ← iadd j n;
        x1 ← load (a +ₚ k1);
        m1 ← load (mean +ₚ j);
        k2 ← iadd j n;
        x2 ← load (a +ₚ k2);
        m2 ← load (mean +ₚ j);
        store (std +ₚ j)
          (PrimFloat.add s (PrimFloat.mul (PrimFloat.sub x1 m1) (PrimFloat.sub x2 m2)))))
    w (λ _, squaring (i + 1) 0).
Proof.
  intros Hir Hw. apply wp_bind, wp_int_val; [unfold in_int, INT_MIN; nia|].
  apply (wp_for_lt (squaring i)); [lia|done| |].
  - clear w Hw. intros j w Hjr (Hf & Hv).
    assert (0 ≤ i * dim_j + j < dim_i * dim_j) as Hk by nia.
    assert (rd (mem w) (a +ₚ (j + i * dim_j)) = Some (A (i * dim_j + j))) as Hx.
    { replace (j + i * dim_j) with (i * dim_j + j) by lia.
      rewrite (frame_rd _ _ _ Hf) by by apply a_not_in_std. by apply Ha. }
    assert (rd (mem w) (mean +ₚ j) = Some (Mn j)) as Hmj.
    { rewrite (frame_rd _ _ _ Hf) by by apply mean_not_in_std. by apply Hmean. }
    assert (is_Some (rd (mem w) (std +ₚ j))) as Hsj by (apply Hf, Hs; lia).
    apply wp_bind. eapply wp_load; [by apply Hv|].
    apply wp_bind, wp_int_val; [unfold in_int, INT_MIN; lia|].
    apply wp_bind. eapply wp_load; [done|].
    apply wp_bind. eapply wp_load; [done|].
    apply wp_bind, wp_int_val; [unfold in_int, INT_MIN; lia|].
    apply wp_bind. eapply wp_load; [done|].
    apply wp_bind. eapply wp_load; [done|].
    apply wp_store; [done|]. split.
    + apply frame_store; [by do 5 apply frame_load|by exists j|done].
    + simpl. intros j' Hj'. destruct (decide (j' = j)) as [->|Hne].
      * rewrite rd_upd_eq by done.
        rewrite decide_False, decide_True by lia.
        replace (Z.to_nat (i + 1)) with (S (Z.to_nat i)) by lia.
        simpl. by rewrite Z2Nat.id by lia.
      * rewrite rd_upd_ne; [|done|by apply padd_ne].
        rewrite Hv by done. do 3 f_equal. repeat case_decide; lia.
  - intros w' (Hf & Hv). split; [done|].
    intros j' Hj'. rewrite Hv by done. do 3 f_equal. repeat case_decide; lia.
Qed.

Lemma stat_std_full :
  wp (stat_std a mean std dim_i dim_j) w0 (λ _ w,
    frame R w0 w ∧
    (∀ j, 0 ≤ j < dim_j → rd (mem w) (std +ₚ j) = Some (col_std A dim_j Mn dim_i j))).
Proof.
  unfold stat_std. apply wp_bind. eapply wp_mono; [apply stat_std_init|].
  intros [] w1 Hw1. apply wp_bind.
  apply (wp_for_lt (λ i, squaring i 0)); [lia|done|apply stat_std_row|].
  clear w1 Hw1. intros w2 (Hf2 & Hv2).
  apply (wp_for_lt (λ j w, frame R w0 w ∧
    (∀ j', 0 ≤ j' < dim_j → rd (mem w) (std +ₚ j') =
       Some (if decide (j' < j) then col_std A dim_j Mn dim_i j'
             else col_sqsum A dim_j Mn j' (Z.to_nat dim_i))))); [lia| | |].
  - split; [done|].
    intros j' Hj'. rewrite Hv2 by done. by rewrite !decide_False by lia.
  - clear w2 Hf2 Hv2. intros j w Hjr (Hf & Hv).
    assert (is_Some (rd (mem w) (std +ₚ j))) as Hsj by (apply Hf, Hs; lia).
    apply wp_bind. eapply wp_load; [by apply Hv|].
    apply wp_bind, wp_int_val; [unfold in_int, INT_MIN; nia|].
    apply wp_bind, wp_store; [done|].
    apply wp_bind. eapply wp_load; [simpl; by apply rd_upd_eq|].
    apply wp_store; [simpl; by apply rd_upd_is_Some|]. split.
    + apply frame_store; [|by exists j|simpl; by apply rd_upd_is_Some].
      apply frame_load. apply frame_store; [by apply frame_load|by exists j|done].
    + simpl. intros j' Hj'. destruct (decide (j' = j)) as [->|Hne].
      * rewrite rd_upd_eq by by apply rd_upd_is_Some.
        by rewrite decide_False, decide_True by lia.
      * rewrite !rd_upd_ne; [|done|by apply padd_ne|by apply rd_upd_is_Some|by apply padd_ne].
        rewrite Hv by done. f_equal. repeat case_decide; try done; lia.
  - intros w (Hf & Hv). split; [done|].
    intros j Hjr. by rewrite Hv, decide_True by lia.
Qed.
End stat_std_correct.

(** ** remove_mean_col *)

Section remove_mean_col_correct.
Variables (a mean b : ptr) (dim_i dim_j : Z) (A Mn : Z → double) (w0 : world).
Hypothesis Hi : 1 ≤ dim_i.
Hypothesis Hj : 1 ≤ dim_j.
Hypothesis Hsize : dim_i * dim_j ≤ INT_MAX.
Hypothesis Ha : ∀ k, 0 ≤ k < dim_i * dim_j → rd (mem w0) (a +ₚ k) = Some (A k).
Hypothesis Hmean : ∀ j, 0 ≤ j < dim_j → rd (mem w0) (mean +ₚ j) = Some (Mn j).
Hypothesis Hb : ∀ k, 0 ≤ k < dim_i * dim_j → is_Some (rd (mem w0) (b +ₚ k)).
Hypothesis Hdisj_a :
  ∀ k k', 0 ≤ k < dim_i * dim_j → 0 ≤ k' < dim_i * dim_j → a +ₚ k ≠ b +ₚ k'.
Hypothesis Hdisj_m :
  ∀ j k, 0 ≤ j < dim_j → 0 ≤ k < dim_i * dim_j → mean +ₚ j ≠ b +ₚ k.

Let R := within b (dim_i * dim_j).

(** While the matrix is centred, the elements before (i, j) being done. *)
Definition centring (i j : Z) (w : world) : Prop :=
  frame R w0 w ∧
  (∀ i' j', 0 ≤ i' → 0 ≤ j' < dim_j → i' * dim_j + j' < i * dim_j + j →
     rd (mem w) (b +ₚ (i' * dim_j + j')) = Some (PrimFloat.sub (A (i' * dim_j + j')) (Mn j'))).

Lemma remove_mean_col_full :
  wp (remove_mean_col a mean b dim_i dim_j) w0 (λ _ w,
    frame R w0 w ∧
    (∀ i j, 0 ≤ i < dim_i → 0 ≤ j < dim_j →
       rd (mem w) (b +ₚ (i * dim_j + j)) = Some (PrimFloat.sub (A (i * dim_j + j)) (Mn j)))).
Proof.
  unfold remove_mean_col.
  apply (wp_for_lt (λ i, centring i 0)); [lia| | |].
  - split; [apply frame_refl|]. intros i' j' ? ? ?. nia.
  - intros i w Hir Hw. apply (wp_for_lt (centring i)); [lia|done| |].
    + clear w Hw. intros j w Hjr (Hf & Hv).
      assert (0 ≤ i * dim_j + j < dim_i * dim_j) as Hk by nia.
      assert (is_Some (rd (mem w) (b +ₚ (i * dim_j + j)))) as Hbk by (apply Hf, Hb; lia).
      apply wp_bind, wp_int_val; [unfold in_int, INT_MIN; nia|].
      apply wp_bind, wp_int_val; [unfold in_int, INT_MIN; lia|].
      apply wp_bind. eapply wp_load.
      { rewrite (frame_rd _ _ _ Hf); [by apply Ha|]. intros (k' & Hk' & Heq). exact (Hdisj_a _ _ Hk Hk' Heq). }
      apply wp_bind. eapply wp_load.
      { simpl. rewrite (frame_rd _ _ _ Hf); [by apply Hmean|].
        intros (k' & Hk' & Heq). exact (Hdisj_m _ _ Hjr Hk' Heq). }
      apply wp_bind, wp_int_val; [unfold in_int, INT_MIN; nia|].
      apply wp_bind, wp_int_val; [unfold in_int, INT_MIN; lia|].
      apply wp_store; [done|]. split.
      * apply frame_store; [by do 2 apply frame_load|by eexists|done].
      * simpl. intros i' j' Hi' Hj' Hlt.
        destruct (decide (i' * dim_j + j' = i * dim_j + j)) as [Heq|Hne].
        -- assert (i' = i) as -> by nia. assert (j' = j) as -> by lia.
           by rewrite rd_upd_eq.
        -- rewrite rd_upd_ne; [apply Hv; lia|done|by apply padd_ne].
    + intros w' (Hf & Hv). split; [done|]. intros i' j' ? ? ?. apply Hv; lia.
  - intros w (Hf & Hv). split; [done|]. intros i j ? ?. apply Hv; nia.
Qed.
End remove_mean_col_correct.
(** * The claims *)

(** ** Buffers *)

(** The buffer of [n] doubles at [p] holds [A 0 .. A (n-1)]. *)
Definition holds (w : world) (p : ptr) (n : Z) (A : Z → double) : Prop :=
  ∀ k, 0 ≤ k < n → rd (mem w) (p +ₚ k) = Some (A k).

(** The [n] doubles at [p] lie inside an object. *)
Definition allocated (w : world) (p : ptr) (n : Z) : Prop :=
  ∀ k, 0 ≤ k < n → is_Some (rd (mem w) (p +ₚ k)).

(** The buffers of [n] doubles at [p] and of [m] doubles at [q] do not overlap. *)
Definition disjoint (p : ptr) (n : Z) (q : ptr) (m : Z) : Prop :=
  ∀ k k', 0 ≤ k < n → 0 ≤ k' < m → p +ₚ k ≠ q +ₚ k'.

Lemma holds_allocated w p n A : holds w p n A → allocated w p n.
Proof. intros H k Hk. rewrite H by done. by eexists. Qed.

Lemma holds_frame R w w' p n A :
  frame R w w' → (∀ k, 0 ≤ k < n → ¬ R (p +ₚ k)) → holds w p n A → holds w' p n A.
Proof. intros Hf HR H k Hk. rewrite (frame_rd _ _ _ Hf) by auto. by apply H. Qed.

Lemma disjoint_not_within p n q m k :
  disjoint p n q m → 0 ≤ k < n → ¬ within q m (p +ₚ k).
Proof. intros Hd Hk (k' & Hk' & Heq). exact (Hd k k' Hk Hk' Heq). Qed.

Lemma disjoint_blocks p n q m : blk p ≠ blk q → disjoint p n q m.
Proof. intros Hne k k' _ _ Heq. apply Hne. by injection Heq. Qed.

Lemma frame_accesses R w w' :
  frame R w w' →
  ∃ evs, trace w' = evs ++ trace w ∧ ∀ q, In (Store q) evs → R q.
Proof. apply frame_trace. Qed.

(** C2. On a matrix of [dim_i >= 1] rows and [dim_j >= 1] columns,
    [stat_mean] returns with [mean[j]] holding the sum over the rows [i] of
    [a[i*dim_j + j]], divided by [dim_i], for every column [j]; among the
    accesses [evs] it made, each of the [dim_i * dim_j] matrix elements is
    loaded exactly once. *)
Theorem stat_mean_column_means a mean dim_i dim_j A w :
  1 ≤ dim_i → 1 ≤ dim_j → dim_i * dim_j ≤ INT_MAX →
  holds w a (dim_i * dim_j) A →
  allocated w mean dim_j →
  disjoint a (dim_i * dim_j) mean dim_j →
  ∃ w' evs,
    stat_mean a mean dim_i dim_j w = Ok tt w' ∧
    (∀ j, 0 ≤ j < dim_j →
       rd (mem w') (mean +ₚ j) =
         Some (PrimFloat.div (col_sum A dim_j j (Z.to_nat dim_i)) (of_int dim_i))) ∧
    trace w' = evs ++ trace w ∧
    (∀ k, 0 ≤ k < dim_i * dim_j → nloads (a +ₚ k) evs = 1%nat).
Proof.
  intros Hi Hj Hsize Ha Hm Hd.
  destruct (wp_returns _ _ _ (stat_mean_full a mean dim_i dim_j A w Hi Hj Hsize Ha Hm Hd))
    as ([] & w' & Hrun & Hf & Hv & Hl).
  destruct (frame_accesses _ _ _ Hf) as (evs & Ht & _).
  exists w', evs. split; [done|]. split; [done|]. split; [done|].
  intros k Hk. specialize (Hl k Hk). rewrite Ht, nloads_app in Hl. lia.
Qed.

(** C3. On a matrix of [dim_i >= 2] rows and [dim_j >= 1] columns and a
    mean vector of length [dim_j], [stat_std] returns with [std[j]] holding
    the square root of the sum over the rows [i] of
    [(a[i*dim_j + j] - mean[j])^2], divided by [dim_i - 1]. *)
Theorem stat_std_sample_deviation a mean std dim_i dim_j A Mn w :
  2 ≤ dim_i → 1 ≤ dim_j → dim_i * dim_j ≤ INT_MAX →
  holds w a (dim_i * dim_j) A →
  holds w mean dim_j Mn →
  allocated w std dim_j →
  disjoint a (dim_i * dim_j) std dim_j →
  disjoint mean dim_j std dim_j →
  ∃ w',
    stat_std a mean std dim_i dim_j w = Ok tt w' ∧
    ∀ j, 0 ≤ j < dim_j →
      rd (mem w') (std +ₚ j) =
        Some (PrimFloat.sqrt
                (PrimFloat.div (col_sqsum A dim_j Mn j (Z.to_nat dim_i)) (of_int (dim_i - 1)))).
Proof.
  intros Hi Hj Hsize Ha Hm Hs Hda Hdm.
  assert (1 ≤ dim_i) as Hi1 by lia.
  destruct (wp_returns _ _ _
    (stat_std_full a mean std dim_i dim_j A Mn w Hi1 Hj Hsize Ha Hm Hs Hda Hdm))
    as ([] & w' & Hrun & Hf & Hv).
  by exists w'.
Qed.

(** C4. On a matrix of [dim_i >= 1] rows and [dim_j >= 1] columns and a
    mean vector of length [dim_j], [remove_mean_col] returns with
    [b[i*dim_j + j] = a[i*dim_j + j] - mean[j]] for every row [i] and column
    [j] of the separate output buffer [b]. *)
Theorem remove_mean_col_centres a mean b dim_i dim_j A Mn w :
  1 ≤ dim_i → 1 ≤ dim_j → dim_i * dim_j ≤ INT_MAX →
  holds w a (dim_i * dim_j) A →
  holds w mean dim_j Mn →
  allocated w b (dim_i * dim_j) →
  disjoint a (dim_i * dim_j) b (dim_i * dim_j) →
  disjoint mean dim_j b (dim_i * dim_j) →
  ∃ w',
    remove_mean_col a mean b dim_i dim_j w = Ok tt w' ∧
    ∀ i j, 0 ≤ i < dim_i → 0 ≤ j < dim_j →
      rd (mem w') (b +ₚ (i * dim_j + j)) = Some (PrimFloat.sub (A (i * dim_j + j)) (Mn j)).
Proof.
  intros Hi Hj Hsize Ha Hm Hb Hda Hdm.
  destruct (wp_returns _ _ _
    (remove_mean_col_full a mean b dim_i dim_j A Mn w Hi Hj Hsize Ha Hm Hb Hda Hdm))
    as ([] & w' & Hrun & Hf & Hv).
  by exists w'.
Qed.

(** C8. Run on a matrix [a], a mean vector and output buffers that do not
    overlap them, [stat_mean], [stat_std] and [remove_mean_col] each return
    having stored only into their output buffer ([mean], [std], [b]): every
    cell outside it keeps its value, so the matrix (and for [stat_std] and
    [remove_mean_col] the mean vector) is unchanged, and nothing is printed
    or drawn. *)
Theorem outputs_only a mean std b dim_i dim_j A Mn w :
  1 ≤ dim_i → 1 ≤ dim_j → dim_i * dim_j ≤ INT_MAX →
  holds w a (dim_i * dim_j) A →
  holds w mean dim_j Mn →
  allocated w std dim_j →
  allocated w b (dim_i * dim_j) →
  disjoint a (dim_i * dim_j) mean dim_j →
  disjoint a (dim_i * dim_j) std dim_j →
  disjoint mean dim_j std dim_j →
  disjoint a (dim_i * dim_j) b (dim_i * dim_j) →
  disjoint mean dim_j b (dim_i * dim_j) →
  (∃ w', stat_mean a mean dim_i dim_j w = Ok tt w' ∧
         frame (within mean dim_j) w w' ∧
         holds w' a (dim_i * dim_j) A) ∧
  (∃ w', stat_std a mean std dim_i dim_j w = Ok tt w' ∧
         frame (within std dim_j) w w' ∧
         holds w' a (dim_i * dim_j) A ∧ holds w' mean dim_j Mn) ∧
  (∃ w', remove_mean_col a mean b dim_i dim_j w = Ok tt w' ∧
         frame (within b (dim_i * dim_j)) w w' ∧
         holds w' a (dim_i * dim_j) A ∧ holds w' mean dim_j Mn).
Proof.
  intros Hi Hj Hsize Ha Hm Hs Hb Hdam Hdas Hdms Hdab Hdmb.
  split; [|split].
  - destruct (wp_returns _ _ _
      (stat_mean_full a mean dim_i dim_j A w Hi Hj Hsize Ha (holds_allocated _ _ _ _ Hm) Hdam))
      as ([] & w' & Hrun & Hf & _).
    exists w'. split; [done|]. split; [done|].
    eapply holds_frame; [done| |done]. intros k Hk. by eapply disjoint_not_within.
  - destruct (wp_returns _ _ _
      (stat_std_full a mean std dim_i dim_j A Mn w Hi Hj Hsize Ha Hm Hs Hdas Hdms))
      as ([] & w' & Hrun & Hf & _).
    exists w'. split; [done|]. split; [done|]. split.
    + eapply holds_frame; [done| |done]. intros k Hk. by eapply disjoint_not_within.
    + eapply holds_frame; [done| |done]. intros k Hk. by eapply disjoint_not_within.
  - destruct (wp_returns _ _ _
      (remove_mean_col_full a mean b dim_i dim_j A Mn w Hi Hj Hsize Ha Hm Hb Hdab Hdmb))
      as ([] & w' & Hrun & Hf & _).
    exists w'. split; [done|]. split; [done|]. split.
    + eapply holds_frame; [done| |done]. intros k Hk. by eapply disjoint_not_within.
    + eapply holds_frame; [done| |done]. intros k Hk. by eapply disjoint_not_within.
Qed.
(** ** modify_mean_stddev *)

Lemma outcome_faults {A} (c : M A) w (E : fault → Prop) :
  outcome c w (λ _ _, False) E → ∃ f, c w = Fault f ∧ E f.
Proof. unfold outcome. destruct (c w) as [|f]; [done|eauto]. Qed.

Section modify_out_of_bounds.
Variables (mtx : ptr) (new_mean new_stddev : double) (dim_i dim_j : Z) (w0 : world).
Hypothesis Hj : 1 ≤ dim_j.
Hypothesis Hij : dim_j < dim_i.
Hypothesis Hsize : dim_i * dim_i ≤ INT_MAX.
Hypothesis Hexact : ∀ k, is_Some (rd (mem w0) (mtx +ₚ k)) ↔ 0 ≤ k < dim_i * dim_j.

(** A store to row [i], column [j] that falls past the end of the matrix. *)
Definition store_past_end (f : fault) : Prop :=
  ∃ i j, 0 ≤ i < dim_i ∧ 0 ≤ j < dim_j ∧ dim_i * dim_j ≤ i * dim_i + j ∧
         f = BadStore (mtx +ₚ (i * dim_i + j)).

(** No object was created or resized. *)
Definition same_objects (w : world) : Prop :=
  ∀ q, is_Some (rd (mem w) q) ↔ is_Some (rd (mem w0) q).

Lemma modify_mean_stddev_faults :
  outcome (modify_mean_stddev mtx new_mean new_stddev dim_i dim_j) w0
    (λ _ _, False) store_past_end.
Proof.
  unfold modify_mean_stddev.
  apply (outcome_for_lt (λ i w, same_objects w ∧ i < dim_i)); [lia| | |].
  - split; [done|lia].
  - intros i w Hir [Hw _].
    apply (outcome_for_lt (λ j w, same_objects w ∧ (i = dim_i - 1 → j < dim_j))); [lia| | |].
    + split; [done|lia].
    + clear w Hw. intros j w Hjr [Hw Hlast].
      assert (0 ≤ i * dim_j + j < dim_i * dim_j) as Hk by nia.
      destruct (proj2 (Hw (mtx +ₚ (i * dim_j + j)))) as [x Hx]; [by apply Hexact|].
      apply outcome_bind, outcome_int_val; [unfold in_int, INT_MIN; nia|].
      apply outcome_bind, outcome_int_val; [unfold in_int, INT_MIN; nia|].
      apply outcome_bind. eapply outcome_load; [done|].
      apply outcome_bind, outcome_int_val; [unfold in_int, INT_MIN; nia|].
      apply outcome_bind, outcome_int_val; [unfold in_int, INT_MIN; nia|].
      destruct (decide (i * dim_i + j < dim_i * dim_j)) as [Hin|Hout].
      * assert (is_Some (rd (mem w) (mtx +ₚ (i * dim_i + j)))) as Hs.
        { apply Hw, Hexact. nia. }
        apply outcome_store; [done|]. split.
        -- intros q. simpl. by rewrite rd_upd_is_Some.
        -- intros ->. nia.
      * apply outcome_store_fault.
        -- simpl. apply eq_None_not_Some. intros Hs%Hw%Hexact. lia.
        -- exists i, j. repeat split; try lia.
    + intros w' [Hw' Hlast]. split; [done|].
      destruct (decide (i = dim_i - 1)) as [->|]; [specialize (Hlast eq_refl)|]; lia.
  - intros w' [_ ?]. lia.
Qed.
End modify_out_of_bounds.

(** C9. Whenever [dim_i > dim_j >= 1] (3 rows and 2 columns, say) and [mtx]
    is an object of exactly [dim_i * dim_j] doubles, [modify_mean_stddev]
    computes for some row [i] and column [j] of the matrix a write index
    [i * dim_i + j >= dim_i * dim_j] and stops on that store outside the
    bounds of the object. *)
Theorem modify_mean_stddev_out_of_bounds mtx new_mean new_stddev dim_i dim_j w :
  1 ≤ dim_j → dim_j < dim_i → dim_i * dim_i ≤ INT_MAX →
  (∀ k, is_Some (rd (mem w) (mtx +ₚ k)) ↔ 0 ≤ k < dim_i * dim_j) →
  ∃ i j, 0 ≤ i < dim_i ∧ 0 ≤ j < dim_j ∧ dim_i * dim_j ≤ i * dim_i + j ∧
    modify_mean_stddev mtx new_mean new_stddev dim_i dim_j w =
      Fault (BadStore (mtx +ₚ (i * dim_i + j))).
Proof.
  intros Hj Hij Hsize Hexact.
  destruct (outcome_faults _ _ _
    (modify_mean_stddev_faults mtx new_mean new_stddev dim_i dim_j w Hj Hij Hsize Hexact))
    as (f & Hrun & i & j & Hi & Hj' & Hge & ->).
  by exists i, j.
Qed.
(** ** Facts of binary64 arithmetic *)

Lemma finite_Prim2SF c :
  is_finite c = true →
  (∃ s, Prim2SF c = S754_zero s) ∨ (∃ s m e, Prim2SF c = S754_finite s m e).
Proof.
  unfold is_finite. intros Hf. apply negb_true_iff, orb_false_iff in Hf as [Hnan Hinf].
  unfold Prim2SF. rewrite Hnan, Hinf.
  destruct (is_zero c); [left; eauto|].
  destruct (Z.frexp c) as [r e]. destruct (shr_fexp _ _ _ _ _) as [sh e'].
  destruct (shr_m sh); [left|right|left]; eauto.
Qed.

Lemma sub_diag_finite c : is_finite c = true → PrimFloat.sub c c = PrimFloat.zero.
Proof.
  intros Hf. apply Prim2SF_inj. rewrite sub_spec.
  destruct (finite_Prim2SF c Hf) as [[s ->]|(s & m & e & ->)].
  - by destruct s.
  - unfold SF64sub, SFsub. rewrite Z.sub_diag. reflexivity.
Qed.

Lemma digits2_pos_iter_xO p k :
  digits2_pos (Pos.iter xO p k) = (digits2_pos p + k)%positive.
Proof.
  induction k as [|k IH] using Pos.peano_ind.
  - simpl. lia.
  - rewrite Pos.iter_succ. simpl. rewrite IH. lia.
Qed.

Lemma digits2_pos_lower p : 2 ^ (Z.pos (digits2_pos p) - 1) ≤ Z.pos p.
Proof.
  induction p as [p IH|p IH|]; simpl digits2_pos; [| |done].
  - replace (Z.pos (Pos.succ (digits2_pos p)) - 1) with (Z.succ (Z.pos (digits2_pos p) - 1)) by lia.
    rewrite Z.pow_succ_r by lia. lia.
  - replace (Z.pos (Pos.succ (digits2_pos p)) - 1) with (Z.succ (Z.pos (digits2_pos p) - 1)) by lia.
    rewrite Z.pow_succ_r by lia. lia.
Qed.

Lemma digits2_pos_int p : Z.pos p ≤ INT_MAX → Z.pos (digits2_pos p) ≤ 31.
Proof.
  intros Hp. destruct (decide (Z.pos (digits2_pos p) ≤ 31)) as [|Hgt]; [done|].
  pose proof (digits2_pos_lower p) as Hlow.
  assert (2 ^ 31 ≤ 2 ^ (Z.pos (digits2_pos p) - 1)) as Hpow by (apply Z.pow_le_mono_r; lia).
  unfold INT_MAX in Hp. change (2 ^ 31) with 2147483648 in Hpow. lia.
Qed.

(** A positive [int] converts to a positive finite double. *)
Lemma binary_normalize_int p :
  Z.pos p ≤ INT_MAX →
  ∃ m e, binary_normalize prec emax (Z.pos p) 0 false = S754_finite false m e.
Proof.
  intros Hp%digits2_pos_int.
  unfold binary_normalize, binary_round, shl_align. set (d := digits2_pos p) in *.
  assert (fexp prec emax (Z.pos d + 0) - 0 = Z.neg (53 - d)) as ->.
  { unfold fexp, emin, prec, emax. lia. }
  unfold binary_round_aux, shr_fexp. simpl Zdigits2.
  rewrite digits2_pos_iter_xO. fold d.
  assert (fexp prec emax (Z.pos (d + (53 - d)) + fexp prec emax (Z.pos d + 0))
            - fexp prec emax (Z.pos d + 0) = 0) as ->.
  { unfold fexp, emin, prec, emax. lia. }
  simpl. rewrite digits2_pos_iter_xO. fold d.
  assert (fexp prec emax (Z.pos (d + (53 - d)) + fexp prec emax (Z.pos d + 0))
            - fexp prec emax (Z.pos d + 0) = 0) as ->.
  { unfold fexp, emin, prec, emax. lia. }
  simpl. rewrite (proj2 (Z.leb_le _ _)); [eauto|].
  unfold fexp, emin, prec, emax. lia.
Qed.

Lemma of_int_positive d :
  1 ≤ d ≤ INT_MAX → ∃ m e, Prim2SF (of_int d) = S754_finite false m e.
Proof.
  intros Hd. unfold of_int. rewrite decide_True by lia.
  rewrite of_uint63_spec, Uint63.of_Z_spec, Z.mod_small.
  - destruct d as [|p|p]; [lia| |lia]. apply binary_normalize_int. lia.
  - unfold INT_MAX in Hd. change Uint63.wB with 9223372036854775808. lia.
Qed.

Lemma div_zero_of_int d :
  1 ≤ d ≤ INT_MAX → PrimFloat.div PrimFloat.zero (of_int d) = PrimFloat.zero.
Proof.
  intros (m & e & Hd)%of_int_positive. apply Prim2SF_inj. by rewrite div_spec, Hd.
Qed.
(** ** Centring with the computed means *)

(** The specification's un-centring, "output + mean broadcast per column":
    element (i, j) of [b] plus [mean[j]].  It is the caller's step of the
    round trip, not a function of stats.c. *)
Definition uncentred (w : world) (b mean : ptr) (dim_j i j : Z) : option double :=
  match rd (mem w) (b +ₚ (i * dim_j + j)), rd (mem w) (mean +ₚ j) with
  | Some x, Some m => Some (PrimFloat.add x m)
  | _, _ => None
  end.

Section pipelines.
Variables (a mean : ptr) (dim_i dim_j : Z) (A : Z → double) (w : world).
Hypothesis Hi : 1 ≤ dim_i.
Hypothesis Hj : 1 ≤ dim_j.
Hypothesis Hsize : dim_i * dim_j ≤ INT_MAX.
Hypothesis Ha : holds w a (dim_i * dim_j) A.
Hypothesis Hm : allocated w mean dim_j.
Hypothesis Ham : disjoint a (dim_i * dim_j) mean dim_j.

Lemma mean_then_centre b :
  allocated w b (dim_i * dim_j) →
  disjoint a (dim_i * dim_j) b (dim_i * dim_j) →
  disjoint mean dim_j b (dim_i * dim_j) →
  wp (stat_mean a mean dim_i dim_j ;; remove_mean_col a mean b dim_i dim_j) w (λ _ w',
    (∀ j, 0 ≤ j < dim_j → rd (mem w') (mean +ₚ j) = Some (col_mean A dim_j dim_i j)) ∧
    (∀ i j, 0 ≤ i < dim_i → 0 ≤ j < dim_j →
       rd (mem w') (b +ₚ (i * dim_j + j)) =
         Some (PrimFloat.sub (A (i * dim_j + j)) (col_mean A dim_j dim_i j)))).
Proof.
  intros Hb Hab Hmb. apply wp_bind.
  eapply wp_mono; [by apply (stat_mean_full a mean dim_i dim_j A w)|].
  intros [] w1 (Hf1 & Hv1 & _).
  eapply wp_mono.
  - apply (remove_mean_col_full a mean b dim_i dim_j A (col_mean A dim_j dim_i) w1);
      try done.
    + eapply holds_frame; [done| |done]. intros k Hk. by eapply disjoint_not_within.
    + intros k Hk. apply Hf1. by apply Hb.
  - intros [] w2 (Hf2 & Hv2). split; [|done].
    intros j Hjr. rewrite (frame_rd _ _ _ Hf2); [by apply Hv1|].
    by eapply disjoint_not_within.
Qed.

Lemma mean_then_std std :
  allocated w std dim_j →
  disjoint a (dim_i * dim_j) std dim_j →
  disjoint mean dim_j std dim_j →
  wp (stat_mean a mean dim_i dim_j ;; stat_std a mean std dim_i dim_j) w (λ _ w',
    ∀ j, 0 ≤ j < dim_j →
      rd (mem w') (std +ₚ j) = Some (col_std A dim_j (col_mean A dim_j dim_i) dim_i j)).
Proof.
  intros Hs Has Hms. apply wp_bind.
  eapply wp_mono; [by apply (stat_mean_full a mean dim_i dim_j A w)|].
  intros [] w1 (Hf1 & Hv1 & _).
  eapply wp_mono.
  - apply (stat_std_full a mean std dim_i dim_j A (col_mean A dim_j dim_i) w1);
      try done.
    + eapply holds_frame; [done| |done]. intros k Hk. by eapply disjoint_not_within.
    + intros k Hk. apply Hf1. by apply Hs.
  - by intros [] w2 (Hf2 & Hv2).
Qed.
End pipelines.

Lemma col_sqsum_constant A dim_j Mn j c n :
  (∀ i, 0 ≤ i < Z.of_nat n → A (i * dim_j + j) = c) →
  Mn j = c → PrimFloat.sub c c = PrimFloat.zero →
  col_sqsum A dim_j Mn j n = PrimFloat.zero.
Proof.
  intros HA HM Hc. induction n as [|n IH]; [done|].
  simpl. rewrite IH by (intros; apply HA; lia).
  rewrite HA, HM, Hc by lia. reflexivity.
Qed.

(** ** Concrete machine states *)

(** A state whose memory holds the given objects; nothing accessed, printed
    or drawn yet. *)
Definition init_world (objs : list (positive * list float)) : world :=
  World (list_to_map objs) [] EmptyString (λ _, 0) 0.

(** The contents of an object as a function of the offset. *)
Definition elements (l : list float) (k : Z) : double :=
  default PrimFloat.zero (l !! Z.to_nat k).

Lemma rd_object (w : world) p l k :
  mem w !! blk p = Some l → off p = 0 →
  rd (mem w) (p +ₚ k) = if decide (0 ≤ k) then l !! Z.to_nat k else None.
Proof.
  intros Hl Ho. unfold rd, padd. simpl. rewrite Hl, Ho.
  by repeat case_decide; try lia.
Qed.

Lemma holds_object (w : world) p l n :
  mem w !! blk p = Some l → off p = 0 → n ≤ Z.of_nat (length l) →
  holds w p n (elements l).
Proof.
  intros Hl Ho Hn k Hk. rewrite (rd_object w p l) by done.
  rewrite decide_True by lia. unfold elements.
  destruct (lookup_lt_is_Some_2 l (Z.to_nat k)) as [x ->]; [lia|done].
Qed.

Lemma allocated_object (w : world) p l n :
  mem w !! blk p = Some l → off p = 0 → n ≤ Z.of_nat (length l) →
  allocated w p n.
Proof. intros. eapply holds_allocated, holds_object; eauto. Qed.

Lemma exact_object (w : world) p l k :
  mem w !! blk p = Some l → off p = 0 →
  is_Some (rd (mem w) (p +ₚ k)) ↔ 0 ≤ k < Z.of_nat (length l).
Proof.
  intros Hl Ho. rewrite (rd_object w p l) by done. case_decide.
  - rewrite lookup_lt_is_Some. lia.
  - split; [by intros [? ?]|lia].
Qed.


(** The specification's scenario [[1,2],[3,4],[5,6]]: the matrix is object 1,
    a mean vector object 2, a deviation vector object 3 and a second matrix
    object 4. *)
Definition scenario : world :=
  init_world [(1%positive, [1; 2; 3; 4; 5; 6]%float); (2%positive, [3; 4]%float);
              (3%positive, [0; 0]%float); (4%positive, [0; 0; 0; 0; 0; 0]%float)].

(** A 2 x 1 matrix with a large and a small element. *)
Definition absorbing : world :=
  init_world [(1%positive, [0x1p60; 1]%float); (2%positive, [0]%float);
              (3%positive, [0; 0]%float)].

(** A 3 x 1 matrix whose only column is constant, 0.1. *)
Definition tenths : world :=
  init_world [(1%positive, [0.1; 0.1; 0.1]%float); (2%positive, [0]%float);
              (3%positive, [0]%float)].

(** A 3 x 1 matrix whose only column is constant, 1. *)
Definition ones : world :=
  init_world [(1%positive, [1; 1; 1]%float); (2%positive, [0]%float);
              (3%positive, [0]%float)].

Ltac object := first [eapply holds_object | eapply allocated_object];
  [vm_compute; reflexivity | reflexivity | simpl; lia].
Ltac apart := apply disjoint_blocks; discriminate.
Ltac small := unfold INT_MAX; lia.

Lemma stat_mean_column_means_scenario :
  ∃ w' evs,
    stat_mean (Ptr 1 0) (Ptr 2 0) 3 2 scenario = Ok tt w' ∧
    (∀ j, 0 ≤ j < 2 →
       rd (mem w') (Ptr 2 0 +ₚ j) =
         Some (PrimFloat.div
                 (col_sum (elements [1; 2; 3; 4; 5; 6]%float) 2 j (Z.to_nat 3)) (of_int 3))) ∧
    trace w' = evs ++ trace scenario ∧
    (∀ k, 0 ≤ k < 3 * 2 → nloads (Ptr 1 0 +ₚ k) evs = 1%nat).
Proof.
  apply (stat_mean_column_means (Ptr 1 0) (Ptr 2 0) 3 2
           (elements [1; 2; 3; 4; 5; 6]%float) scenario);
    [lia | lia | small | object | object | apart].
Defined.

Lemma stat_std_sample_deviation_scenario :
  ∃ w',
    stat_std (Ptr 1 0) (Ptr 2 0) (Ptr 3 0) 3 2 scenario = Ok tt w' ∧
    ∀ j, 0 ≤ j < 2 →
      rd (mem w') (Ptr 3 0 +ₚ j) =
        Some (PrimFloat.sqrt
                (PrimFloat.div
                   (col_sqsum (elements [1; 2; 3; 4; 5; 6]%float) 2 (elements [3; 4]%float) j
                      (Z.to_nat 3))
                   (of_int (3 - 1)))).
Proof.
  apply (stat_std_sample_deviation (Ptr 1 0) (Ptr 2 0) (Ptr 3 0) 3 2
           (elements [1; 2; 3; 4; 5; 6]%float) (elements [3; 4]%float) scenario);
    [lia | lia | small | object | object | object | apart | apart].
Defined.

Lemma remove_mean_col_centres_scenario :
  ∃ w',
    remove_mean_col (Ptr 1 0) (Ptr 2 0) (Ptr 4 0) 3 2 scenario = Ok tt w' ∧
    ∀ i j, 0 ≤ i < 3 → 0 ≤ j < 2 →
      rd (mem w') (Ptr 4 0 +ₚ (i * 2 + j)) =
        Some (PrimFloat.sub (elements [1; 2; 3; 4; 5; 6]%float (i * 2 + j))
                (elements [3; 4]%float j)).
Proof.
  apply (remove_mean_col_centres (Ptr 1 0) (Ptr 2 0) (Ptr 4 0) 3 2
           (elements [1; 2; 3; 4; 5; 6]%float) (elements [3; 4]%float) scenario);
    [lia | lia | small | object | object | object | apart | apart].
Defined.

Lemma outputs_only_scenario :
  (∃ w', stat_mean (Ptr 1 0) (Ptr 2 0) 3 2 scenario = Ok tt w' ∧
         frame (within (Ptr 2 0) 2) scenario w' ∧
         holds w' (Ptr 1 0) (3 * 2) (elements [1; 2; 3; 4; 5; 6]%float)) ∧
  (∃ w', stat_std (Ptr 1 0) (Ptr 2 0) (Ptr 3 0) 3 2 scenario = Ok tt w' ∧
         frame (within (Ptr 3 0) 2) scenario w' ∧
         holds w' (Ptr 1 0) (3 * 2) (elements [1; 2; 3; 4; 5; 6]%float) ∧
         holds w' (Ptr 2 0) 2 (elements [3; 4]%float)) ∧
  (∃ w', remove_mean_col (Ptr 1 0) (Ptr 2 0) (Ptr 4 0) 3 2 scenario = Ok tt w' ∧
         frame (within (Ptr 4 0) (3 * 2)) scenario w' ∧
         holds w' (Ptr 1 0) (3 * 2) (elements [1; 2; 3; 4; 5; 6]%float) ∧
         holds w' (Ptr 2 0) 2 (elements [3; 4]%float)).
Proof.
  apply (outputs_only (Ptr 1 0) (Ptr 2 0) (Ptr 3 0) (Ptr 4 0) 3 2
           (elements [1; 2; 3; 4; 5; 6]%float) (elements [3; 4]%float) scenario);
    [lia | lia | small | object | object | object | object
     | apart | apart | apart | apart | apart].
Defined.

Lemma modify_mean_stddev_out_of_bounds_3x2 :
  ∃ i j, 0 ≤ i < 3 ∧ 0 ≤ j < 2 ∧ 3 * 2 ≤ i * 3 + j ∧
    modify_mean_stddev (Ptr 1 0) 1 10 3 2 scenario =
      Fault (BadStore (Ptr 1 0 +ₚ (i * 3 + j))).
Proof.
  apply (modify_mean_stddev_out_of_bounds (Ptr 1 0) 1 10 3 2 scenario);
    [lia | lia | small |].
  intros k. apply (exact_object scenario (Ptr 1 0) [1; 2; 3; 4; 5; 6]%float);
    [vm_compute; reflexivity | reflexivity].
Defined.

(** C1 (a defect of the code). On the 2 x 3 matrix [[1,2,3],[4,5,6]] with
    [new_mean = 1] and [new_stddev = 10], [modify_mean_stddev] stores row
    [i] at offset [i * dim_i], not [i * dim_j]: row 1 lands one cell early,
    on top of the last element of row 0, and the last cell keeps its old
    value.  It leaves [[11,21,41],[51,61,6]], where scaling every element
    gives [[11,21,31],[41,51,61]]. *)
Theorem modify_mean_stddev_2x3 :
  ∃ w',
    modify_mean_stddev (Ptr 1 0) 1 10 2 3 scenario = Ok tt w' ∧
    mem w' !! 1%positive = Some [11; 21; 41; 51; 61; 6]%float.
Proof. eexists. split; vm_compute; reflexivity. Qed.

(** C5. A call to [randn] takes exactly one value [r] from the
    pseudo-random stream, normalises it to [u = r / RAND_MAX] and returns
    [sqrt (-2 * log u) * cos (Twopi * u)]: the same [u] under the logarithm
    and under the cosine.  It touches nothing else. *)
Theorem randn_single_draw RAND_MAX (log cos : double → double) w :
  ∃ x w',
    randn RAND_MAX log cos w = Ok x w' ∧
    (let u := PrimFloat.div (of_int (rng w (drawn w))) (of_int RAND_MAX) in
     x = PrimFloat.mul (PrimFloat.sqrt (PrimFloat.mul (-2)%float (log u)))
                       (cos (PrimFloat.mul Twopi u))) ∧
    drawn w' = S (drawn w) ∧ rng w' = rng w ∧
    mem w' = mem w ∧ trace w' = trace w ∧ out w' = out w.
Proof.
  unfold randn. eexists _, _. split.
  - unfold mbind, M_bind, rand. simpl. reflexivity.
  - simpl. repeat split; reflexivity.
Qed.

Lemma string_app_assoc (s1 s2 s3 : string) : ((s1 ++ s2) ++ s3 = s1 ++ (s2 ++ s3))%string.
Proof.
  induction s1 as [|c s1 IH]; [done|].
  change (String c ((s1 ++ s2) ++ s3) = String c (s1 ++ (s2 ++ s3)))%string.
  by rewrite IH.
Qed.

(** C10. On the 1 x 1 matrix [[3.14159265]], [show_matrix] appends to the
    standard output exactly the nine characters ["3.14159 "] and a newline:
    the value with 5 fractional digits, one space, and the newline that ends
    the row. *)
Theorem show_matrix_pi A w :
  holds w A 1 (λ _, 3.14159265%float) →
  ∃ w',
    show_matrix A 1 1 w = Ok tt w' ∧
    out w' = (out w ++ ("3.14159 " ++ newline))%string ∧
    String.length ("3.14159 " ++ newline) = 9%nat.
Proof.
  intros HA. specialize (HA 0 ltac:(lia)).
  assert (fmt_2_5f 3.14159265%float = Some "3.14159"%string) as Hfmt
    by (vm_compute; reflexivity).
  eexists. split; [|split; [|reflexivity]].
  - unfold show_matrix, for_lt. simpl. unfold mbind, M_bind, imul, iadd, int_val.
    rewrite !decide_True by (unfold in_int, INT_MIN, INT_MAX; lia).
    simpl. unfold load. change (0 * 1 + 0) with 0. rewrite HA. simpl.
    unfold printf_2_5f. rewrite Hfmt. reflexivity.
  - simpl. rewrite !string_app_assoc. reflexivity.
Qed.

Lemma show_matrix_pi_example :
  ∃ w',
    show_matrix (Ptr 1 0) 1 1 (init_world [(1%positive, [3.14159265]%float)]) = Ok tt w' ∧
    out w' = (out (init_world [(1%positive, [3.14159265]%float)])
                ++ ("3.14159 " ++ newline))%string ∧
    String.length ("3.14159 " ++ newline) = 9%nat.
Proof.
  apply (show_matrix_pi (Ptr 1 0) (init_world [(1%positive, [3.14159265]%float)])).
  intros k Hk. replace k with 0 by lia. vm_compute. reflexivity.
Defined.

(** ** Rounding of binary64 sums *)

Lemma digits2_pos_upper p : Z.pos p < 2 ^ Z.pos (digits2_pos p).
Proof.
  induction p as [p IH|p IH|]; simpl digits2_pos; [| |done].
  - rewrite Pos2Z.inj_succ, Z.pow_succ_r by lia. lia.
  - rewrite Pos2Z.inj_succ, Z.pow_succ_r by lia. lia.
Qed.

Lemma digits2_pos_unique p k : 2 ^ (k - 1) ≤ Z.pos p < 2 ^ k → Z.pos (digits2_pos p) = k.
Proof.
  intros [Hlo Hhi]. pose proof (digits2_pos_lower p) as Hl.
  pose proof (digits2_pos_upper p) as Hu.
  destruct (Z.lt_trichotomy (Z.pos (digits2_pos p)) k) as [Hlt|[Heq|Hgt]]; [|done|].
  - assert (2 ^ Z.pos (digits2_pos p) ≤ 2 ^ (k - 1)) by (apply Z.pow_le_mono_r; lia). lia.
  - assert (2 ^ k ≤ 2 ^ (Z.pos (digits2_pos p) - 1)) by (apply Z.pow_le_mono_r; lia). lia.
Qed.

Lemma iter_xO_value p k : Z.pos (Pos.iter xO p k) = Z.pos p * 2 ^ Z.pos k.
Proof.
  induction k as [|k IH] using Pos.peano_ind.
  - simpl. lia.
  - rewrite Pos.iter_succ, Pos2Z.inj_xO, IH, Pos2Z.inj_succ, Z.pow_succ_r by lia. lia.
Qed.

(** [shr_1] applied [k] times. *)
Fixpoint shr_n (k : nat) (mrs : shr_record) : shr_record :=
  match k with
  | O => mrs
  | S k' => shr_1 (shr_n k' mrs)
  end.

Lemma shr_n_add k1 k2 mrs : shr_n (k1 + k2) mrs = shr_n k1 (shr_n k2 mrs).
Proof. induction k1 as [|k1 IH]; simpl; [done|by rewrite IH]. Qed.

Lemma shr_n_shr_1 k mrs : shr_n k (shr_1 mrs) = shr_1 (shr_n k mrs).
Proof. induction k as [|k IH]; simpl; [done|by rewrite IH]. Qed.

Lemma iter_pos_shr_n p mrs : SpecFloat.iter_pos shr_1 p mrs = shr_n (Pos.to_nat p) mrs.
Proof.
  revert mrs. induction p as [p IH|p IH|]; intros mrs; simpl SpecFloat.iter_pos.
  - rewrite !IH, Pos2Nat.inj_xI. simpl.
    replace (Pos.to_nat p + (Pos.to_nat p + 0))%nat with (Pos.to_nat p + Pos.to_nat p)%nat by lia.
    by rewrite shr_n_add, shr_n_shr_1, shr_n_shr_1.
  - rewrite !IH, Pos2Nat.inj_xO. simpl.
    replace (Pos.to_nat p + (Pos.to_nat p + 0))%nat with (Pos.to_nat p + Pos.to_nat p)%nat by lia.
    by rewrite shr_n_add.
  - done.
Qed.

Definition b2z (b : bool) : Z := if b then 1 else 0.

(** One shift: the mantissa is halved, the bit shifted out becomes the
    round bit, the old round and sticky bits become sticky. *)
Lemma shr_1_spec m r s :
  0 ≤ m →
  0 ≤ shr_m (shr_1 (Build_shr_record m r s)) ∧
  m = 2 * shr_m (shr_1 (Build_shr_record m r s))
        + b2z (shr_r (shr_1 (Build_shr_record m r s))) ∧
  shr_s (shr_1 (Build_shr_record m r s)) = r || s.
Proof.
  intros Hm. destruct m as [|[p|p|]|]; simpl; try lia. all: split; [lia|split; [lia|done]].
Qed.

(** [k >= 1] shifts of an exact mantissa [m0]: what is left, the round bit
    and whether anything lies below it. *)
Lemma shr_n_spec k m0 :
  0 ≤ m0 →
  let mrs := shr_n (S k) (Build_shr_record m0 false false) in
  ∃ low, 0 ≤ shr_m mrs ∧ 0 ≤ low < 2 ^ Z.of_nat k ∧
    m0 = shr_m mrs * 2 ^ Z.of_nat (S k) + b2z (shr_r mrs) * 2 ^ Z.of_nat k + low ∧
    (shr_s mrs = false ↔ low = 0).
Proof.
  intros Hm0. induction k as [|k IH].
  - cbv zeta.
    change (shr_n 1 (Build_shr_record m0 false false))
      with (shr_1 (Build_shr_record m0 false false)).
    destruct (shr_1_spec m0 false false Hm0) as (Hpos & Hm & Hs).
    destruct (shr_1 _) as [m r s]. simpl in *. subst s.
    exists 0. split; [done|]. split; [lia|]. split; [lia|done].
  - destruct IH as (low & Hpos & Hlow & Hm & Hs).
    set (mrs := shr_n (S k) _) in *. cbv zeta.
    change (shr_n (S (S k)) _) with (shr_1 mrs).
    destruct mrs as [m r s]. simpl in Hpos, Hm, Hs.
    destruct (shr_1_spec m r s Hpos) as (Hpos' & Hm' & Hs').
    exists (b2z r * 2 ^ Z.of_nat k + low).
    rewrite Hs'. split; [done|].
    replace (Z.of_nat (S (S k))) with (Z.succ (Z.succ (Z.of_nat k))) by lia.
    replace (Z.of_nat (S k)) with (Z.succ (Z.of_nat k)) in * by lia.
    rewrite !Z.pow_succ_r in * by lia.
    assert (0 < 2 ^ Z.of_nat k) by (apply Z.pow_pos_nonneg; lia).
    split; [destruct r; simpl; lia|]. split; [nia|].
    destruct r, s; simpl in *; split; intros; try done; try lia.
Qed.

(** Rounding to nearest after [k + 1] shifts is off by at most half a unit
    of the shifted mantissa. *)
Lemma round_shifted k m0 :
  0 ≤ m0 →
  let mrs := shr_n (S k) (Build_shr_record m0 false false) in
  let m1 := round_nearest_even (shr_m mrs) (loc_of_shr_record mrs) in
  shr_m mrs ≤ m1 ≤ shr_m mrs + 1 ∧
  shr_m mrs * 2 ^ Z.of_nat (S k) ≤ m0 < (shr_m mrs + 1) * 2 ^ Z.of_nat (S k) ∧
  2 * Z.abs (m1 * 2 ^ Z.of_nat (S k) - m0) ≤ 2 ^ Z.of_nat (S k).
Proof.
  intros Hm0. destruct (shr_n_spec k m0 Hm0) as (low & Hpos & Hlow & Hm & Hs).
  cbv zeta. destruct (shr_n (S k) _) as [m r s]. simpl in Hpos, Hm, Hs. simpl shr_m.
  replace (Z.of_nat (S k)) with (Z.succ (Z.of_nat k)) in * by lia.
  rewrite Z.pow_succ_r in * by lia.
  assert (0 < 2 ^ Z.of_nat k) by (apply Z.pow_pos_nonneg; lia).
  assert (s = false → low = 0) as Hs0 by apply Hs.
  assert (s = true → low ≠ 0) as Hs1.
  { intros -> Hl. by apply Hs in Hl. }
  destruct r, s; simpl in *.
  - specialize (Hs1 eq_refl). nia.
  - specialize (Hs0 eq_refl). destruct (Z.even m); nia.
  - specialize (Hs1 eq_refl). nia.
  - specialize (Hs0 eq_refl). nia.
Qed.

Lemma shr_fexp_keep m e :
  fexp prec emax (Zdigits2 m + e) - e ≤ 0 →
  shr_fexp prec emax m e loc_Exact = (Build_shr_record m false false, e).
Proof. intros Hn. unfold shr_fexp, shr. simpl. by destruct (_ - e). Qed.

Lemma shr_fexp_shift m e n :
  fexp prec emax (Zdigits2 m + e) - e = Z.pos n →
  shr_fexp prec emax m e loc_Exact =
    (shr_n (Pos.to_nat n) (Build_shr_record m false false), e + Z.pos n).
Proof. intros Hn. unfold shr_fexp, shr. simpl. by rewrite Hn, iter_pos_shr_n. Qed.

Lemma round_nearest_even_exact m :
  round_nearest_even m (loc_of_shr_record (Build_shr_record m false false)) = m.
Proof. done. Qed.

(** What [binary_round_aux] returns on an exact positive mantissa whose
    exponent is not below the least one: a finite value within half a unit
    in its last place, or an overflow. *)
Lemma binary_round_aux_error s p e :
  -1074 ≤ e →
  match binary_round_aux prec emax s (Z.pos p) e loc_Exact with
  | S754_finite s' m' e' =>
      s' = s ∧ e ≤ e' ∧ 2 * Z.abs (Z.pos m' * 2 ^ (e' - e) - Z.pos p) ≤ 2 ^ (e' - e)
  | S754_infinity s' => True
  | S754_zero _ | S754_nan => False
  end.
Proof.
  intros He. unfold binary_round_aux.
  destruct (fexp prec emax (Zdigits2 (Z.pos p) + e) - e) as [|n|n] eqn:Hn.
  - rewrite !shr_fexp_keep by lia. simpl shr_m. rewrite round_nearest_even_exact.
    rewrite shr_fexp_keep by lia. simpl shr_m.
    destruct (_ <=? _); [|done]. split; [done|].
    rewrite Z.sub_diag, Z.pow_0_r, Z.mul_1_r, Z.sub_diag. simpl. lia.
  - rewrite (shr_fexp_shift _ _ n) by done.
    simpl Zdigits2 in Hn. unfold fexp, emin, prec, emax in Hn.
    pose proof (digits2_pos_lower p) as Hlo. pose proof (digits2_pos_upper p) as Hhi.
    set (D := Z.pos (digits2_pos p)) in *. assert (D = Z.pos n + 53) as HD by lia.
    destruct (Pos2Nat.is_succ n) as [k Hk]. rewrite Hk.
    assert (Z.of_nat (S k) = Z.pos n) as Hkn by lia.
    destruct (round_shifted k (Z.pos p) ltac:(lia)) as (Hm1 & Hq & Herr).
    rewrite Hkn in Hq, Herr.
    set (mrs := shr_n (S k) _) in *. set (q := shr_m mrs) in *.
    set (m1 := round_nearest_even q (loc_of_shr_record mrs)) in *.
    assert (2 ^ D = 2 ^ 53 * 2 ^ Z.pos n) as HpD by (rewrite HD, Z.pow_add_r by lia; lia).
    assert (2 ^ (D - 1) = 2 ^ 52 * 2 ^ Z.pos n) as HpD1.
    { replace (D - 1) with (Z.pos n + 52) by lia. rewrite Z.pow_add_r by lia. lia. }
    assert (0 < 2 ^ Z.pos n) as Hpn by (apply Z.pow_pos_nonneg; lia).
    assert (2 ^ 52 ≤ q < 2 ^ 53) as Hqr by nia.
    destruct (decide (m1 < 2 ^ 53)) as [Hlt|Hge].
    + destruct m1 as [|pm|pm] eqn:Hm1eq; [lia| |lia].
      rewrite shr_fexp_keep.
      * simpl shr_m. destruct (_ <=? _); [|done]. split; [done|].
        replace (e + Z.pos n - e) with (Z.pos n) by lia. lia.
      * simpl Zdigits2. rewrite (digits2_pos_unique pm 53) by (simpl; lia).
        unfold fexp, emin, prec, emax. lia.
    + assert (m1 = 2 ^ 53) as Hm1eq by lia. rewrite Hm1eq in *.
      rewrite (shr_fexp_shift _ _ 1).
      * simpl shr_m. destruct (_ <=? _); [|done]. split; [done|].
        replace (e + Z.pos n + 1 - e) with (Z.succ (Z.pos n)) by lia.
        rewrite Z.pow_succ_r by lia.
        change (Z.pos 4503599627370496) with (2 ^ 52). lia.
      * change (Zdigits2 (2 ^ 53)) with 54. unfold fexp, emin, prec, emax. lia.
  - rewrite !shr_fexp_keep by lia. simpl shr_m. rewrite round_nearest_even_exact.
    rewrite shr_fexp_keep by lia. simpl shr_m.
    destruct (_ <=? _); [|done]. split; [done|].
    rewrite Z.sub_diag, Z.pow_0_r, Z.mul_1_r, Z.sub_diag. simpl. lia.
Qed.

Lemma scale_error X a b : 0 < b → 2 * Z.abs X ≤ a → 2 * Z.abs (X * b) ≤ a * b.
Proof. intros Hb HX. rewrite Z.abs_mul, (Z.abs_eq b) by lia. nia. Qed.

(** ** Values of doubles as integers

    Every finite double is a multiple of [2^-1074], the least positive
    double. *)

Definition signed (s : bool) (m : positive) : Z := if s then Z.neg m else Z.pos m.

(** The value, as a multiple of [2^-1074] (0 for a NaN or an infinity). *)
Definition sf_units (x : spec_float) : Z :=
  match x with
  | S754_finite s m e => signed s m * 2 ^ (e + 1074)
  | _ => 0
  end.

(** The weight of the last mantissa bit, in the same unit (0 for a zero, a
    NaN or an infinity). *)
Definition sf_ulp (x : spec_float) : Z :=
  match x with
  | S754_finite _ _ e => 2 ^ (e + 1074)
  | _ => 0
  end.

Definition sf_finite (x : spec_float) : Prop :=
  match x with
  | S754_zero _ | S754_finite _ _ _ => True
  | _ => False
  end.

Definition sf_valid (x : spec_float) : Prop :=
  match x with
  | S754_finite _ _ e => -1074 ≤ e
  | _ => True
  end.

Lemma binary_round_error s p e :
  -1074 ≤ e →
  match binary_round prec emax s p e with
  | S754_finite s' m' e' =>
      s' = s ∧ -1074 ≤ e' ∧
      2 * Z.abs (Z.pos m' * 2 ^ (e' + 1074) - Z.pos p * 2 ^ (e + 1074)) ≤ 2 ^ (e' + 1074)
  | S754_infinity s' => True
  | S754_zero _ | S754_nan => False
  end.
Proof.
  intros He. unfold binary_round, shl_align.
  set (ez := fexp prec emax (Z.pos (digits2_pos p) + e)).
  assert (-1074 ≤ ez) as Hez by (unfold ez, fexp, emin, prec, emax; lia).
  destruct (ez - e) as [|d|d] eqn:Hd.
  - pose proof (binary_round_aux_error s p e He) as H.
    destruct (binary_round_aux _ _ _ _ _ _) as [| | |s' m' e']; try done.
    destruct H as (Hs & Hle & Herr). split; [done|]. split; [lia|].
    replace (e' + 1074) with ((e' - e) + (e + 1074)) by lia.
    rewrite Z.pow_add_r by lia. rewrite Z.mul_assoc, <- Z.mul_sub_distr_r.
    apply scale_error; [apply Z.pow_pos_nonneg; lia|done].
  - pose proof (binary_round_aux_error s p e He) as H.
    destruct (binary_round_aux _ _ _ _ _ _) as [| | |s' m' e']; try done.
    destruct H as (Hs & Hle & Herr). split; [done|]. split; [lia|].
    replace (e' + 1074) with ((e' - e) + (e + 1074)) by lia.
    rewrite Z.pow_add_r by lia. rewrite Z.mul_assoc, <- Z.mul_sub_distr_r.
    apply scale_error; [apply Z.pow_pos_nonneg; lia|done].
  - pose proof (binary_round_aux_error s (Pos.iter xO p d) ez Hez) as H.
    destruct (binary_round_aux _ _ _ _ _ _) as [| | |s' m' e']; try done.
    destruct H as (Hs & Hle & Herr). split; [done|]. split; [lia|].
    rewrite iter_xO_value in Herr.
    replace (e' + 1074) with ((e' - ez) + (ez + 1074)) by lia.
    replace (e + 1074) with (Z.pos d + (ez + 1074)) by lia.
    rewrite (Z.pow_add_r 2 (e' - ez)), (Z.pow_add_r 2 (Z.pos d)) by lia.
    rewrite !Z.mul_assoc, <- Z.mul_sub_distr_r.
    apply scale_error; [apply Z.pow_pos_nonneg; lia|done].
Qed.

Lemma binary_normalize_error M e sz :
  -1074 ≤ e →
  let z := binary_normalize prec emax M e sz in
  sf_finite z →
  sf_valid z ∧ 2 * Z.abs (sf_units z - M * 2 ^ (e + 1074)) ≤ sf_ulp z.
Proof.
  intros He z. unfold z, binary_normalize. destruct M as [|p|p].
  - simpl. lia.
  - pose proof (binary_round_error false p e He) as H.
    destruct (binary_round _ _ _ _ _) as [| | |s' m' e']; try done.
    destruct H as (-> & Hv & Herr). intros _. split; [done|]. exact Herr.
  - pose proof (binary_round_error true p e He) as H.
    destruct (binary_round _ _ _ _ _) as [| | |s' m' e']; try done.
    destruct H as (-> & Hv & Herr). intros _. split; [done|].
    unfold sf_units, sf_ulp, signed.
    replace (Z.neg m' * 2 ^ (e' + 1074) - Z.neg p * 2 ^ (e + 1074))
      with (- (Z.pos m' * 2 ^ (e' + 1074) - Z.pos p * 2 ^ (e + 1074))) by lia.
    by rewrite Z.abs_opp.
Qed.

Lemma shl_align_units m e ez :
  -1074 ≤ ez → ez ≤ e →
  Z.pos (fst (shl_align m e ez)) * 2 ^ (ez + 1074) = Z.pos m * 2 ^ (e + 1074).
Proof.
  intros Hez Hle. unfold shl_align. destruct (ez - e) as [|d|d] eqn:Hd; simpl fst.
  - by replace ez with e by lia.
  - lia.
  - rewrite iter_xO_value. replace (e + 1074) with (Z.pos d + (ez + 1074)) by lia.
    rewrite (Z.pow_add_r 2 (Z.pos d)) by lia. ring.
Qed.

Lemma cond_Zopp_units s m e ez :
  -1074 ≤ ez → ez ≤ e →
  cond_Zopp s (Z.pos (fst (shl_align m e ez))) * 2 ^ (ez + 1074)
    = sf_units (S754_finite s m e).
Proof.
  intros Hez Hle. pose proof (shl_align_units m e ez Hez Hle) as H.
  unfold sf_units, signed, cond_Zopp. destruct s; lia.
Qed.

(** A finite sum is within half a unit in its last place of the exact sum;
    so is a finite difference. *)
Lemma SFadd_error x y :
  sf_valid x → sf_valid y →
  let z := SFadd prec emax x y in
  sf_finite z →
  sf_finite x ∧ sf_finite y ∧ sf_valid z ∧
  2 * Z.abs (sf_units z - (sf_units x + sf_units y)) ≤ sf_ulp z.
Proof.
  intros Hx Hy z. unfold z.
  destruct x as [sx|sx| |sx mx ex], y as [sy|sy| |sy my ey]; simpl; try done.
  - destruct sx, sy; simpl; lia.
  - intros _. simpl in Hy. repeat (split; [done|]).
    assert (0 < 2 ^ (ey + 1074)) by (apply Z.pow_pos_nonneg; lia). lia.
  - by destruct sx, sy.
  - intros _. simpl in Hx. repeat (split; [done|]).
    assert (0 < 2 ^ (ex + 1074)) by (apply Z.pow_pos_nonneg; lia). lia.
  - simpl in Hx, Hy. intros Hfin.
    destruct (binary_normalize_error _ (Z.min ex ey) false ltac:(lia) Hfin) as [Hv Herr].
    repeat (split; [done|]).
    rewrite Z.mul_add_distr_r, !cond_Zopp_units in Herr by lia. exact Herr.
Qed.

Lemma SFsub_error x y :
  sf_valid x → sf_valid y →
  let z := SFsub prec emax x y in
  sf_finite z →
  sf_finite x ∧ sf_finite y ∧ sf_valid z ∧
  2 * Z.abs (sf_units z - (sf_units x - sf_units y)) ≤ sf_ulp z.
Proof.
  intros Hx Hy z. unfold z.
  destruct x as [sx|sx| |sx mx ex], y as [sy|sy| |sy my ey]; simpl; try done.
  - destruct sx, sy; simpl; lia.
  - intros _. simpl in Hy. repeat (split; [done|]).
    assert (0 < 2 ^ (ey + 1074)) by (apply Z.pow_pos_nonneg; lia).
    unfold signed. destruct sy; simpl; lia.
  - by destruct sx, sy.
  - intros _. simpl in Hx. repeat (split; [done|]).
    assert (0 < 2 ^ (ex + 1074)) by (apply Z.pow_pos_nonneg; lia). lia.
  - simpl in Hx, Hy. intros Hfin.
    destruct (binary_normalize_error _ (Z.min ex ey) false ltac:(lia) Hfin) as [Hv Herr].
    repeat (split; [done|]).
    rewrite Z.mul_sub_distr_r, !cond_Zopp_units in Herr by lia. exact Herr.
Qed.

(** The value of a double as a multiple of [2^-1074] (0 for a NaN or an
    infinity), and the weight of its last mantissa bit in the same unit. *)
Definition units (x : double) : Z := sf_units (Prim2SF x).
Definition last_place (x : double) : Z := sf_ulp (Prim2SF x).

Lemma Prim2SF_sf_valid x : sf_valid (Prim2SF x).
Proof.
  pose proof (Prim2SF_valid x) as H. destruct (Prim2SF x) as [| | |s m e]; try done.
  simpl in *. unfold bounded, canonical_mantissa in H.
  apply andb_prop in H as [H%Z.eqb_eq _].
  unfold fexp, emin, prec, emax in H. lia.
Qed.

Lemma is_finite_sf_finite x : is_finite x = true → sf_finite (Prim2SF x).
Proof. intros [[s ->]|(s & m & e & ->)]%finite_Prim2SF; done. Qed.

(** Subtracting [m] and adding it back: a finite result is within half a
    unit in the last place of the difference, plus half a unit in its own
    last place, of the value started from. *)
Lemma sub_add_error x m :
  let d := PrimFloat.sub x m in
  let r := PrimFloat.add d m in
  is_finite r = true →
  sf_finite (Prim2SF x) ∧
  2 * Z.abs (units r - units x) ≤ last_place d + last_place r.
Proof.
  intros d r Hr%is_finite_sf_finite. unfold units, last_place, r, d in *.
  rewrite add_spec in Hr |- *.
  destruct (SFadd_error _ _ (Prim2SF_sf_valid (PrimFloat.sub x m)) (Prim2SF_sf_valid m) Hr)
    as (Hd & Hm & _ & Hadd).
  rewrite sub_spec in Hd, Hadd |- *.
  destruct (SFsub_error _ _ (Prim2SF_sf_valid x) (Prim2SF_sf_valid m) Hd)
    as (Hx & _ & _ & Hsub).
  split; [done|]. unfold SF64add, SF64sub in *. lia.
Qed.

(** C6 (as amended). After [stat_mean] and [remove_mean_col], adding
    [mean[j]] back to element (i, j) of the centred matrix gives
    [r = (a[i*dim_j + j] - mean[j]) + mean[j]] evaluated in binary64,
    [mean[j]] being the computed column mean.  Whenever [r] is finite, the
    original element is finite and [r] is within half a unit in the last
    place of the centred value [a[i*dim_j + j] - mean[j]], plus half a unit
    in the last place of [r], of it. *)
Theorem centre_then_uncentre a mean b dim_i dim_j A w :
  1 ≤ dim_i → 1 ≤ dim_j → dim_i * dim_j ≤ INT_MAX →
  holds w a (dim_i * dim_j) A →
  allocated w mean dim_j →
  allocated w b (dim_i * dim_j) →
  disjoint a (dim_i * dim_j) mean dim_j →
  disjoint a (dim_i * dim_j) b (dim_i * dim_j) →
  disjoint mean dim_j b (dim_i * dim_j) →
  ∃ w',
    (stat_mean a mean dim_i dim_j ;; remove_mean_col a mean b dim_i dim_j) w = Ok tt w' ∧
    ∀ i j, 0 ≤ i < dim_i → 0 ≤ j < dim_j →
      let x := A (i * dim_j + j) in
      let m := PrimFloat.div (col_sum A dim_j j (Z.to_nat dim_i)) (of_int dim_i) in
      let r := PrimFloat.add (PrimFloat.sub x m) m in
      uncentred w' b mean dim_j i j = Some r ∧
      (is_finite r = true →
         sf_finite (Prim2SF x) ∧
         2 * Z.abs (units r - units x) ≤ last_place (PrimFloat.sub x m) + last_place r).
Proof.
  intros Hi Hj Hsize Ha Hm Hb Ham Hab Hmb.
  destruct (wp_returns _ _ _
    (mean_then_centre a mean dim_i dim_j A w Hi Hj Hsize Ha Hm Ham b Hb Hab Hmb))
    as ([] & w' & Hrun & Hmean & Hcentred).
  exists w'. split; [done|]. intros i j Hir Hjr x m r. split.
  - unfold uncentred. by rewrite Hcentred, Hmean by done.
  - apply sub_add_error.
Qed.

Lemma centre_then_uncentre_scenario :
  ∃ w',
    (stat_mean (Ptr 1 0) (Ptr 2 0) 3 2 ;; remove_mean_col (Ptr 1 0) (Ptr 2 0) (Ptr 4 0) 3 2)
      scenario = Ok tt w' ∧
    ∀ i j, 0 ≤ i < 3 → 0 ≤ j < 2 →
      let x := elements [1; 2; 3; 4; 5; 6]%float (i * 2 + j) in
      let m := PrimFloat.div
                 (col_sum (elements [1; 2; 3; 4; 5; 6]%float) 2 j (Z.to_nat 3)) (of_int 3) in
      let r := PrimFloat.add (PrimFloat.sub x m) m in
      uncentred w' (Ptr 4 0) (Ptr 2 0) 2 i j = Some r ∧
      (is_finite r = true →
         sf_finite (Prim2SF x) ∧
         2 * Z.abs (units r - units x) ≤ last_place (PrimFloat.sub x m) + last_place r).
Proof.
  apply (centre_then_uncentre (Ptr 1 0) (Ptr 2 0) (Ptr 4 0) 3 2
           (elements [1; 2; 3; 4; 5; 6]%float) scenario);
    [lia | lia | small | object | object | object | apart | apart | apart].
Defined.

(** C6, as stated, fails. On the 2 x 1 matrix [[2^60],[1]] the computed
    mean is 2^59 (the sum 2^60 + 1 rounds to 2^60), the centred second
    element 1 - 2^59 rounds to -2^59, and adding the mean back gives 0: the
    element 1 is reconstructed neither exactly nor within a tolerance
    relative to the element itself. *)
Lemma roundtrip_loses_element :
  ∃ w',
    (stat_mean (Ptr 1 0) (Ptr 2 0) 2 1 ;; remove_mean_col (Ptr 1 0) (Ptr 2 0) (Ptr 3 0) 2 1)
      absorbing = Ok tt w' ∧
    rd (mem absorbing) (Ptr 1 0 +ₚ (1 * 1 + 0)) = Some 1%float ∧
    rd (mem w') (Ptr 2 0 +ₚ 0) = Some 0x1p59%float ∧
    rd (mem w') (Ptr 3 0 +ₚ (1 * 1 + 0)) = Some (-0x1p59)%float ∧
    uncentred w' (Ptr 3 0) (Ptr 2 0) 1 1 0 = Some 0%float.
Proof.
  eexists. split; [vm_compute; reflexivity|].
  split; [|split; [|split]]; vm_compute; reflexivity.
Qed.

(** C7 (as amended). On a matrix with [dim_i >= 2] whose column [j] is
    constant, with a finite value [c], [stat_mean] followed by [stat_std]
    leaves [std[j] = 0] provided the mean computed for that column is [c]
    itself. *)
Theorem constant_column_std_zero a mean std dim_i dim_j A c j w :
  2 ≤ dim_i → 1 ≤ dim_j → dim_i * dim_j ≤ INT_MAX →
  holds w a (dim_i * dim_j) A →
  allocated w mean dim_j →
  allocated w std dim_j →
  disjoint a (dim_i * dim_j) mean dim_j →
  disjoint a (dim_i * dim_j) std dim_j →
  disjoint mean dim_j std dim_j →
  0 ≤ j < dim_j →
  (∀ i, 0 ≤ i < dim_i → A (i * dim_j + j) = c) →
  is_finite c = true →
  PrimFloat.div (col_sum A dim_j j (Z.to_nat dim_i)) (of_int dim_i) = c →
  ∃ w',
    (stat_mean a mean dim_i dim_j ;; stat_std a mean std dim_i dim_j) w = Ok tt w' ∧
    rd (mem w') (std +ₚ j) = Some PrimFloat.zero.
Proof.
  intros Hi Hj Hsize Ha Hm Hs Ham Has Hms Hjr Hc Hfin Hmean.
  assert (1 ≤ dim_i) as Hi1 by lia.
  destruct (wp_returns _ _ _
    (mean_then_std a mean dim_i dim_j A w Hi1 Hj Hsize Ha Hm Ham std Hs Has Hms))
    as ([] & w' & Hrun & Hstd).
  exists w'. split; [done|]. rewrite Hstd by done. f_equal.
  unfold col_std. rewrite (col_sqsum_constant _ _ _ _ c).
  - rewrite div_zero_of_int; [reflexivity|]. unfold INT_MAX in *. nia.
  - intros i Hir. apply Hc. lia.
  - done.
  - by apply sub_diag_finite.
Qed.

Lemma constant_column_std_zero_ones :
  ∃ w',
    (stat_mean (Ptr 1 0) (Ptr 2 0) 3 1 ;; stat_std (Ptr 1 0) (Ptr 2 0) (Ptr 3 0) 3 1) ones
      = Ok tt w' ∧
    rd (mem w') (Ptr 3 0 +ₚ 0) = Some PrimFloat.zero.
Proof.
  apply (constant_column_std_zero (Ptr 1 0) (Ptr 2 0) (Ptr 3 0) 3 1
           (elements [1; 1; 1]%float) 1%float 0 ones);
    [lia | lia | small | object | object | object | apart | apart | apart | lia
     | | vm_compute; reflexivity | vm_compute; reflexivity].
  intros i Hi.
  assert (i = 0 ∨ i = 1 ∨ i = 2) as [-> | [-> | ->]] by lia; vm_compute; reflexivity.
Defined.

(** C7, as stated, fails. On the 3 x 1 matrix whose elements are all the
    double 0.1, the sum 0.1 + 0.1 + 0.1 rounds to 0.30000000000000004 and
    the mean to 0.10000000000000002, one unit in the last place above 0.1;
    the deviation computed from it is about 1.7e-17, not 0. *)
Lemma constant_column_std_nonzero :
  ∃ w',
    (stat_mean (Ptr 1 0) (Ptr 2 0) 3 1 ;; stat_std (Ptr 1 0) (Ptr 2 0) (Ptr 3 0) 3 1) tenths
      = Ok tt w' ∧
    (∀ i, 0 ≤ i < 3 → rd (mem tenths) (Ptr 1 0 +ₚ (i * 1 + 0)) = Some 0.1%float) ∧
    rd (mem w') (Ptr 2 0 +ₚ 0) = Some 0.10000000000000002%float ∧
    rd (mem w') (Ptr 3 0 +ₚ 0) = Some 1.6996749443881478e-17%float ∧
    1.6996749443881478e-17%float ≠ PrimFloat.zero.
Proof.
  eexists. split; [vm_compute; reflexivity|]. split; [|split; [|split]].
  - intros i Hi.
    assert (i = 0 ∨ i = 1 ∨ i = 2) as [-> | [-> | ->]] by lia; vm_compute; reflexivity.
  - vm_compute. reflexivity.
  - vm_compute. reflexivity.
  - discriminate.
Qed.

(** * Further properties of the code *)

(** ** Outcomes with no assumption on the state *)

Lemma outcome_load_any p w (Q : double → world → Prop) (E : fault → Prop) :
  (∀ v, rd (mem w) p = Some v → Q v (log (Load p) w)) → E (BadLoad p) →
  outcome (load p) w Q E.
Proof. intros HQ HE. unfold outcome, load. destruct (rd (mem w) p); auto. Qed.

Lemma outcome_store_any p v w (Q : unit → world → Prop) (E : fault → Prop) :
  (is_Some (rd (mem w) p) →
   Q tt (World (upd (mem w) p v) (Store p :: trace w) (out w) (rng w) (drawn w))) →
  E (BadStore p) →
  outcome (store p v) w Q E.
Proof. intros HQ HE. unfold outcome, store. destruct (rd (mem w) p) eqn:Hrd; eauto. Qed.

Lemma outcome_int_any z w (Q : Z → world → Prop) (E : fault → Prop) :
  (in_int z → Q z w) → E (IntOverflow z) → outcome (int_val z) w Q E.
Proof. intros HQ HE. unfold outcome, int_val. case_decide; simpl; auto. Qed.

(** A loop whose body keeps [I] keeps [I], however many times it runs. *)
Lemma outcome_for_inv (I : world → Prop) hi body w E :
  I w →
  (∀ i w', 0 ≤ i < hi → I w' → outcome (body i) w' (λ _, I) E) →
  outcome (for_lt hi body) w (λ _, I) E.
Proof.
  intros H0 Hstep. unfold for_lt. apply (outcome_for_aux (λ _, I)); [done| |done].
  intros i w' Hi. apply Hstep. lia.
Qed.

(** ** The cells a call touches *)

Definition cell (e : event) : ptr :=
  match e with Load p | Store p => p end.

(** Between [w0] and [w] every load and store was to a cell in [R]. *)
Definition touches_only (R : ptr → Prop) (w0 w : world) : Prop :=
  ∃ evs, trace w = evs ++ trace w0 ∧ ∀ e, In e evs → R (cell e).

(** A fault on a memory access is an access to a cell in [R]. *)
Definition faults_in (R : ptr → Prop) (f : fault) : Prop :=
  match f with
  | BadLoad p | BadStore p => R p
  | IntOverflow _ => True
  | NanText => False
  end.

Lemma touches_only_refl R w : touches_only R w w.
Proof. exists []. split; [done|]. intros e []. Qed.

Lemma touches_only_log R w0 w e :
  touches_only R w0 w → R (cell e) → touches_only R w0 (log e w).
Proof.
  intros (evs & Ht & Hin) HR. exists (e :: evs). simpl. rewrite Ht. split; [done|].
  intros e' [<-|He']; auto.
Qed.

Lemma touches_only_store R w0 w p v :
  touches_only R w0 w → R p →
  touches_only R w0 (World (upd (mem w) p v) (Store p :: trace w) (out w) (rng w) (drawn w)).
Proof.
  intros (evs & Ht & Hin) HR. exists (Store p :: evs). simpl. rewrite Ht. split; [done|].
  intros e' [<-|He']; auto.
Qed.

Lemma within_index p dim_i dim_j i j :
  0 ≤ i < dim_i → 0 ≤ j < dim_j → within p (dim_i * dim_j) (p +ₚ (i * dim_j + j)).
Proof. intros Hi Hj. exists (i * dim_j + j). split; [nia|done]. Qed.

(** [confined R c]: whatever the state, [c] loads and stores only cells in
    [R], and a memory fault of [c] is at a cell in [R]. *)
Definition confined (R : ptr → Prop) {A} (c : M A) : Prop :=
  ∀ w0 w, touches_only R w0 w → outcome c w (λ _, touches_only R w0) (faults_in R).

Lemma confined_ret R {A} (a : A) : confined R (mret a).
Proof. by intros w0 w Hw. Qed.

Lemma confined_bind R {A B} (c : M A) (f : A → M B) :
  confined R c → (∀ a, confined R (f a)) → confined R (c ≫= f).
Proof.
  intros Hc Hf w0 w Hw. apply outcome_bind.
  eapply outcome_mono; [by apply Hc| |done]. intros a w' Hw'. by apply Hf.
Qed.

Lemma confined_int R {B} z (f : Z → M B) :
  confined R (f z) → confined R (int_val z ≫= f).
Proof.
  intros Hf w0 w Hw. apply outcome_bind, outcome_int_any; [|done]. intros _. by apply Hf.
Qed.

Lemma confined_load R p : R p → confined R (load p).
Proof.
  intros Hp w0 w Hw. apply outcome_load_any; [|done].
  intros v _. by apply touches_only_log.
Qed.

Lemma confined_store R p v : R p → confined R (store p v).
Proof.
  intros Hp w0 w Hw. apply outcome_store_any; [|done].
  intros _. by apply touches_only_store.
Qed.

Lemma confined_for R hi body :
  (∀ i, 0 ≤ i < hi → confined R (body i)) → confined R (for_lt hi body).
Proof.
  intros Hbody w0 w Hw. apply outcome_for_inv; [done|].
  intros i w' Hi Hw'. by apply Hbody.
Qed.

Lemma confined_run R {A} (c : M A) w :
  confined R c → outcome c w (λ _, touches_only R w) (faults_in R).
Proof. intros Hc. apply Hc, touches_only_refl. Qed.

Section bounds.
Variables (a mean std b : ptr) (dim_i dim_j : Z).

Lemma stat_mean_confined :
  confined (λ q, within a (dim_i * dim_j) q ∨ within mean dim_j q)
    (stat_mean a mean dim_i dim_j).
Proof.
  unfold stat_mean, imul, iadd.
  apply confined_bind; [|intros _; apply confined_bind; [|intros _]].
  - apply confined_for. intros j Hj. apply confined_store. right. by exists j.
  - apply confined_for. intros i Hi. apply confined_int.
    apply confined_for. intros j Hj.
    apply confined_bind; [apply confined_load; right; by exists j|intros m].
    apply confined_int.
    apply confined_bind; [apply confined_load|intros x].
    + left. replace (j + i * dim_j) with (i * dim_j + j) by lia. by apply within_index.
    + apply confined_store. right. by exists j.
  - apply confined_for. intros j Hj.
    apply confined_bind; [apply confined_load; right; by exists j|intros m].
    apply confined_store. right. by exists j.
Qed.

Lemma stat_std_confined :
  confined (λ q, within a (dim_i * dim_j) q ∨ within mean dim_j q ∨ within std dim_j q)
    (stat_std a mean std dim_i dim_j).
Proof.
  unfold stat_std, imul, iadd, isub.
  assert (∀ i j, 0 ≤ i < dim_i → 0 ≤ j < dim_j →
            within a (dim_i * dim_j) (a +ₚ (j + i * dim_j))) as Ha.
  { intros i j Hi Hj. replace (j + i * dim_j) with (i * dim_j + j) by lia.
    by apply within_index. }
  apply confined_bind; [|intros _; apply confined_bind; [|intros _]].
  - apply confined_for. intros j Hj. apply confined_store. right. right. by exists j.
  - apply confined_for. intros i Hi. apply confined_int.
    apply confined_for. intros j Hj.
    apply confined_bind; [apply confined_load; right; right; by exists j|intros s].
    apply confined_int.
    apply confined_bind; [apply confined_load; left; by apply Ha|intros x1].
    apply confined_bind; [apply confined_load; right; left; by exists j|intros m1].
    apply confined_int.
    apply confined_bind; [apply confined_load; left; by apply Ha|intros x2].
    apply confined_bind; [apply confined_load; right; left; by exists j|intros m2].
    apply confined_store. right. right. by exists j.
  - apply confined_for. intros j Hj.
    apply confined_bind; [apply confined_load; right; right; by exists j|intros s].
    apply confined_int.
    apply confined_bind; [apply confined_store; right; right; by exists j|intros _].
    apply confined_bind; [apply confined_load; right; right; by exists j|intros s'].
    apply confined_store. right. right. by exists j.
Qed.

Lemma remove_mean_col_confined :
  confined (λ q, within a (dim_i * dim_j) q ∨ within mean dim_j q ∨
                 within b (dim_i * dim_j) q)
    (remove_mean_col a mean b dim_i dim_j).
Proof.
  unfold remove_mean_col, imul, iadd.
  apply confined_for. intros i Hi. apply confined_for. intros j Hj.
  do 2 apply confined_int.
  apply confined_bind; [apply confined_load; left; by apply within_index|intros x].
  apply confined_bind; [apply confined_load; right; left; by exists j|intros m].
  do 2 apply confined_int.
  apply confined_store. right. right. by apply within_index.
Qed.
End bounds.

(** X1. Whatever the state and the arguments, [stat_mean], [stat_std] and
    [remove_mean_col] load and store only elements [0 .. dim_i*dim_j - 1] of
    their matrices and [0 .. dim_j - 1] of their vectors; when one of them
    stops on a memory fault, the faulting access is to such an element
    (which the caller did not provide). *)
Theorem column_functions_in_bounds a mean std b dim_i dim_j w :
  let A := within a (dim_i * dim_j) in
  let Mean := within mean dim_j in
  let Std := within std dim_j in
  let B := within b (dim_i * dim_j) in
  outcome (stat_mean a mean dim_i dim_j) w
    (λ _, touches_only (λ q, A q ∨ Mean q) w) (faults_in (λ q, A q ∨ Mean q)) ∧
  outcome (stat_std a mean std dim_i dim_j) w
    (λ _, touches_only (λ q, A q ∨ Mean q ∨ Std q) w)
    (faults_in (λ q, A q ∨ Mean q ∨ Std q)) ∧
  outcome (remove_mean_col a mean b dim_i dim_j) w
    (λ _, touches_only (λ q, A q ∨ Mean q ∨ B q) w)
    (faults_in (λ q, A q ∨ Mean q ∨ B q)).
Proof.
  intros A Mean Std B. split; [|split]; apply confined_run.
  - apply stat_mean_confined.
  - apply stat_std_confined.
  - apply remove_mean_col_confined.
Qed.


(** ** modify_mean_stddev where it works *)

Section modify_in_place.
Variables (mtx : ptr) (new_mean new_stddev : double) (dim_i dim_j : Z).
Variables (A : Z → double) (w0 : world).
Hypothesis Hi : 1 ≤ dim_i.
Hypothesis Hj : 1 ≤ dim_j.
Hypothesis Hsize : dim_i * dim_j ≤ INT_MAX.
Hypothesis Ha : holds w0 mtx (dim_i * dim_j) A.

Let R := within mtx (dim_i * dim_j).

(** The value [modify_mean_stddev] computes from [x]. *)
Definition rescaled (x : double) : double :=
  PrimFloat.add (PrimFloat.mul x new_stddev) new_mean.

(** The elements before offset [n] are rescaled, the others untouched. *)
Definition rescaling (n : Z) (w : world) : Prop :=
  frame R w0 w ∧
  ∀ k, 0 ≤ k < dim_i * dim_j →
    rd (mem w) (mtx +ₚ k) = Some (if decide (k < n) then rescaled (A k) else A k).

Lemma modify_mean_stddev_same_stride :
  (∀ i, 0 ≤ i < dim_i → i * dim_i = i * dim_j) →
  wp (modify_mean_stddev mtx new_mean new_stddev dim_i dim_j) w0
    (λ _, rescaling (dim_i * dim_j)).
Proof.
  intros Hstride. unfold modify_mean_stddev, imul, iadd.
  apply (wp_for_lt (λ i, rescaling (i * dim_j))); [lia| | |].
  - split; [apply frame_refl|]. intros k Hk. rewrite decide_False by lia. by apply Ha.
  - intros i w Hir Hw.
    apply (wp_for_lt (λ j, rescaling (i * dim_j + j))); [lia| | |].
    + by replace (i * dim_j + 0) with (i * dim_j) by lia.
    + clear w Hw. intros j w Hjr (Hf & Hv).
      assert (0 ≤ i * dim_j + j < dim_i * dim_j) as Hk by nia.
      assert (is_Some (rd (mem w) (mtx +ₚ (i * dim_j + j)))) as Hs.
      { rewrite Hv by done. by eexists. }
      apply wp_bind, wp_int_val; [unfold in_int, INT_MIN; nia|].
      apply wp_bind, wp_int_val; [unfold in_int, INT_MIN; lia|].
      apply wp_bind. eapply wp_load; [by apply Hv|].
      rewrite decide_False by lia. rewrite (Hstride i Hir).
      apply wp_bind, wp_int_val; [unfold in_int, INT_MIN; nia|].
      apply wp_bind, wp_int_val; [unfold in_int, INT_MIN; lia|].
      apply wp_store; [done|]. split.
      * apply frame_store; [by apply frame_load|by eexists|done].
      * simpl. intros k Hkr. destruct (decide (k = i * dim_j + j)) as [->|Hne].
        -- rewrite rd_upd_eq by done. by rewrite decide_True by lia.
        -- rewrite rd_upd_ne; [|done|by apply padd_ne].
           rewrite Hv by done. repeat case_decide; try done; lia.
    + intros w'. by replace (i * dim_j + dim_j) with ((i + 1) * dim_j) by lia.
  - done.
Qed.
End modify_in_place.

(** X2. On a square matrix ([dim_i = dim_j]) and on a single row
    ([dim_i = 1]) the store offset [i * dim_i + j] of [modify_mean_stddev]
    is the element's own offset: the call returns with every element
    replaced by [old * new_stddev + new_mean], having written nothing but
    the matrix. *)
Theorem modify_mean_stddev_square_or_row mtx new_mean new_stddev dim_i dim_j A w :
  1 ≤ dim_i → 1 ≤ dim_j → dim_i * dim_j ≤ INT_MAX →
  dim_i = dim_j ∨ dim_i = 1 →
  holds w mtx (dim_i * dim_j) A →
  ∃ w',
    modify_mean_stddev mtx new_mean new_stddev dim_i dim_j w = Ok tt w' ∧
    holds w' mtx (dim_i * dim_j)
      (λ k, PrimFloat.add (PrimFloat.mul (A k) new_stddev) new_mean) ∧
    frame (within mtx (dim_i * dim_j)) w w'.
Proof.
  intros Hi Hj Hsize Hshape Ha.
  destruct (wp_returns _ _ _
    (modify_mean_stddev_same_stride mtx new_mean new_stddev dim_i dim_j A w Hi Hj Hsize Ha
       ltac:(intros i Hir; destruct Hshape; nia)))
    as ([] & w' & Hrun & Hf & Hv).
  exists w'. split; [done|]. split; [|done].
  intros k Hk. rewrite Hv by done. by rewrite decide_True by lia.
Qed.

Lemma modify_mean_stddev_square_2x2 :
  ∃ w',
    modify_mean_stddev (Ptr 1 0) 1 10 2 2 scenario = Ok tt w' ∧
    holds w' (Ptr 1 0) (2 * 2)
      (λ k, PrimFloat.add (PrimFloat.mul (elements [1; 2; 3; 4; 5; 6]%float k) 10) 1) ∧
    frame (within (Ptr 1 0) (2 * 2)) scenario w'.
Proof.
  apply (modify_mean_stddev_square_or_row (Ptr 1 0) 1 10 2 2
           (elements [1; 2; 3; 4; 5; 6]%float) scenario);
    [lia | lia | small | left; reflexivity | object].
Defined.

Section modify_packed.
Variables (mtx : ptr) (new_mean new_stddev : double) (dim_i dim_j : Z).
Variables (A : Z → double) (w0 : world).
Hypothesis Hi : 1 ≤ dim_i.
Hypothesis Hij : dim_i ≤ dim_j.
Hypothesis Hsize : dim_i * dim_j ≤ INT_MAX.
Hypothesis Ha : holds w0 mtx (dim_i * dim_j) A.

Let R := within mtx ((dim_i - 1) * dim_i + dim_j).
Let f := rescaled new_mean new_stddev.

(** Row [i] being done up to column [j]: the elements still to be read are
    untouched, the earlier rows are packed at stride [dim_i], and row [i] is
    written up to column [j]. *)
Definition packing (i j : Z) (w : world) : Prop :=
  frame R w0 w ∧
  (∀ k, i * dim_j + j ≤ k < dim_i * dim_j → rd (mem w) (mtx +ₚ k) = Some (A k)) ∧
  (∀ i' j', 0 ≤ i' < i → 0 ≤ j' < dim_i →
     rd (mem w) (mtx +ₚ (i' * dim_i + j')) = Some (f (A (i' * dim_j + j')))) ∧
  (∀ j', 0 ≤ j' < j →
     rd (mem w) (mtx +ₚ (i * dim_i + j')) = Some (f (A (i * dim_j + j')))).

(** Rows [0 .. i-1] are done: packed, the last of them in full. *)
Definition packed (i : Z) (w : world) : Prop :=
  frame R w0 w ∧
  (∀ k, i * dim_j ≤ k < dim_i * dim_j → rd (mem w) (mtx +ₚ k) = Some (A k)) ∧
  (∀ i' j', 0 ≤ i' < i → 0 ≤ j' < dim_i →
     rd (mem w) (mtx +ₚ (i' * dim_i + j')) = Some (f (A (i' * dim_j + j')))) ∧
  (∀ j', 1 ≤ i → 0 ≤ j' < dim_j →
     rd (mem w) (mtx +ₚ ((i - 1) * dim_i + j')) = Some (f (A ((i - 1) * dim_j + j')))).

Lemma modify_mean_stddev_packs :
  wp (modify_mean_stddev mtx new_mean new_stddev dim_i dim_j) w0 (λ _, packed dim_i).
Proof.
  unfold modify_mean_stddev, imul, iadd.
  apply (wp_for_lt packed); [lia| | |done].
  - split; [apply frame_refl|]. split; [intros k Hk; apply Ha; lia|].
    split; intros; lia.
  - intros i w Hir (Hf0 & Hrest0 & Hrows0 & Hlast0).
    apply (wp_for_lt (packing i)); [lia| | |].
    + split; [done|]. split; [intros k Hk; apply Hrest0; lia|].
      split; [done|]. intros; lia.
    + clear w Hf0 Hrest0 Hrows0 Hlast0. intros j w Hjr (Hf & Hrest & Hrows & Hrow).
      assert (0 ≤ i * dim_j + j < dim_i * dim_j) as Hk by nia.
      assert (0 ≤ i * dim_i + j ≤ i * dim_j + j) as Hle by nia.
      assert (is_Some (rd (mem w) (mtx +ₚ (i * dim_i + j)))) as Hs.
      { apply Hf. eapply holds_allocated; [exact Ha|]. lia. }
      apply wp_bind, wp_int_val; [unfold in_int, INT_MIN; nia|].
      apply wp_bind, wp_int_val; [unfold in_int, INT_MIN; lia|].
      apply wp_bind. eapply wp_load; [apply Hrest; lia|].
      apply wp_bind, wp_int_val; [unfold in_int, INT_MIN; nia|].
      apply wp_bind, wp_int_val; [unfold in_int, INT_MIN; nia|].
      apply wp_store; [done|]. split; [|split; [|split]].
      * apply frame_store; [by apply frame_load| |done].
        exists (i * dim_i + j). split; [nia|done].
      * simpl. intros k Hkr. rewrite rd_upd_ne; [apply Hrest; lia|done|].
        apply padd_ne. lia.
      * simpl. intros i' j' Hi' Hj'. rewrite rd_upd_ne; [by apply Hrows|done|].
        apply padd_ne. nia.
      * simpl. intros j' Hj'. destruct (decide (j' = j)) as [->|Hne].
        -- by rewrite rd_upd_eq.
        -- rewrite rd_upd_ne; [apply Hrow; lia|done|]. apply padd_ne. lia.
    + intros w' (Hf & Hrest & Hrows & Hrow). split; [done|].
      split; [intros k Hk; apply Hrest; lia|]. split.
      * intros i' j' Hi' Hj'. destruct (decide (i' = i)) as [->|Hne].
        -- apply Hrow. lia.
        -- apply Hrows; lia.
      * intros j' _ Hj'. replace (i + 1 - 1) with i by lia. by apply Hrow.
Qed.
End modify_packed.

(** X3. When [dim_i <= dim_j], [modify_mean_stddev] returns.  It stores the
    rescaled row [i] at offset [i * dim_i], so the rows end up packed at
    stride [dim_i]: cell [i * dim_i + j] holds
    [a[i*dim_j + j] * new_stddev + new_mean] of the original matrix for
    every row [i] and column [j < dim_i], and for every column of the last
    row.  Nothing is stored from offset [(dim_i - 1) * dim_i + dim_j] on. *)
Theorem modify_mean_stddev_packs_rows mtx new_mean new_stddev dim_i dim_j A w :
  1 ≤ dim_i → dim_i ≤ dim_j → dim_i * dim_j ≤ INT_MAX →
  holds w mtx (dim_i * dim_j) A →
  ∃ w',
    modify_mean_stddev mtx new_mean new_stddev dim_i dim_j w = Ok tt w' ∧
    (∀ i j, 0 ≤ i < dim_i → 0 ≤ j < dim_j → j < dim_i ∨ i = dim_i - 1 →
       rd (mem w') (mtx +ₚ (i * dim_i + j)) =
         Some (PrimFloat.add (PrimFloat.mul (A (i * dim_j + j)) new_stddev) new_mean)) ∧
    frame (within mtx ((dim_i - 1) * dim_i + dim_j)) w w'.
Proof.
  intros Hi Hij Hsize Ha.
  destruct (wp_returns _ _ _
    (modify_mean_stddev_packs mtx new_mean new_stddev dim_i dim_j A w Hi Hij Hsize Ha))
    as ([] & w' & Hrun & Hf & _ & Hrows & Hlast).
  exists w'. split; [done|]. split; [|done].
  intros i j Hir Hjr [Hlt| ->].
  - apply Hrows; lia.
  - apply Hlast; lia.
Qed.

Lemma modify_mean_stddev_packs_rows_2x3 :
  ∃ w',
    modify_mean_stddev (Ptr 1 0) 1 10 2 3 scenario = Ok tt w' ∧
    (∀ i j, 0 ≤ i < 2 → 0 ≤ j < 3 → j < 2 ∨ i = 2 - 1 →
       rd (mem w') (Ptr 1 0 +ₚ (i * 2 + j)) =
         Some (PrimFloat.add
                 (PrimFloat.mul (elements [1; 2; 3; 4; 5; 6]%float (i * 3 + j)) 10) 1)) ∧
    frame (within (Ptr 1 0) ((2 - 1) * 2 + 3)) scenario w'.
Proof.
  apply (modify_mean_stddev_packs_rows (Ptr 1 0) 1 10 2 3
           (elements [1; 2; 3; 4; 5; 6]%float) scenario);
    [lia | lia | small | object].
Defined.


(** ** remove_mean_col in place *)

Section remove_mean_col_in_place.
Variables (a mean : ptr) (dim_i dim_j : Z) (A Mn : Z → double) (w0 : world).
Hypothesis Hi : 1 ≤ dim_i.
Hypothesis Hj : 1 ≤ dim_j.
Hypothesis Hsize : dim_i * dim_j ≤ INT_MAX.
Hypothesis Ha : holds w0 a (dim_i * dim_j) A.
Hypothesis Hmean : holds w0 mean dim_j Mn.
Hypothesis Hdisj : disjoint mean dim_j a (dim_i * dim_j).

Let R := within a (dim_i * dim_j).

(** The elements before (i, j) are centred, the others untouched. *)
Definition centring_in_place (i j : Z) (w : world) : Prop :=
  frame R w0 w ∧
  ∀ i' j', 0 ≤ i' < dim_i → 0 ≤ j' < dim_j →
    rd (mem w) (a +ₚ (i' * dim_j + j')) =
      Some (if decide (i' * dim_j + j' < i * dim_j + j)
            then PrimFloat.sub (A (i' * dim_j + j')) (Mn j')
            else A (i' * dim_j + j')).

Lemma remove_mean_col_in_place_full :
  wp (remove_mean_col a mean a dim_i dim_j) w0 (λ _, centring_in_place dim_i 0).
Proof.
  unfold remove_mean_col, imul, iadd.
  apply (wp_for_lt (λ i, centring_in_place i 0)); [lia| | |done].
  - split; [apply frame_refl|]. intros i' j' Hi' Hj'.
    rewrite decide_False by nia. apply Ha. nia.
  - intros i w Hir Hw. apply (wp_for_lt (centring_in_place i)); [lia|done| |].
    + clear w Hw. intros j w Hjr (Hf & Hv).
      assert (0 ≤ i * dim_j + j < dim_i * dim_j) as Hk by nia.
      assert (is_Some (rd (mem w) (a +ₚ (i * dim_j + j)))) as Hs.
      { rewrite Hv by done. by eexists. }
      apply wp_bind, wp_int_val; [unfold in_int, INT_MIN; nia|].
      apply wp_bind, wp_int_val; [unfold in_int, INT_MIN; lia|].
      apply wp_bind. eapply wp_load; [by apply Hv|].
      rewrite decide_False by lia.
      apply wp_bind. eapply wp_load.
      { simpl. rewrite (frame_rd _ _ _ Hf); [by apply Hmean|].
        by eapply disjoint_not_within. }
      apply wp_bind, wp_int_val; [unfold in_int, INT_MIN; nia|].
      apply wp_bind, wp_int_val; [unfold in_int, INT_MIN; lia|].
      apply wp_store; [done|]. split.
      * apply frame_store; [by do 2 apply frame_load|by eexists|done].
      * simpl. intros i' j' Hi' Hj'.
        destruct (decide (i' * dim_j + j' = i * dim_j + j)) as [Heq|Hne].
        -- assert (i' = i) as -> by nia. assert (j' = j) as -> by lia.
           rewrite rd_upd_eq by done. by rewrite decide_True by lia.
        -- rewrite rd_upd_ne; [|done|by apply padd_ne].
           rewrite Hv by done. repeat case_decide; try done; lia.
    + intros w' (Hf & Hv). split; [done|]. intros i' j' Hi' Hj'.
      rewrite Hv by done. repeat case_decide; try done; lia.
Qed.
End remove_mean_col_in_place.

(** X4. [remove_mean_col] may be run in place, with the matrix itself as
    output buffer ([b = a]): it returns with every element [a[i*dim_j + j]]
    replaced by its old value minus [mean[j]], the mean vector unchanged and
    nothing but the matrix written. *)
Theorem remove_mean_col_in_place a mean dim_i dim_j A Mn w :
  1 ≤ dim_i → 1 ≤ dim_j → dim_i * dim_j ≤ INT_MAX →
  holds w a (dim_i * dim_j) A →
  holds w mean dim_j Mn →
  disjoint mean dim_j a (dim_i * dim_j) →
  ∃ w',
    remove_mean_col a mean a dim_i dim_j w = Ok tt w' ∧
    (∀ i j, 0 ≤ i < dim_i → 0 ≤ j < dim_j →
       rd (mem w') (a +ₚ (i * dim_j + j)) = Some (PrimFloat.sub (A (i * dim_j + j)) (Mn j))) ∧
    holds w' mean dim_j Mn ∧
    frame (within a (dim_i * dim_j)) w w'.
Proof.
  intros Hi Hj Hsize Ha Hm Hd.
  destruct (wp_returns _ _ _
    (remove_mean_col_in_place_full a mean dim_i dim_j A Mn w Hi Hj Hsize Ha Hm Hd))
    as ([] & w' & Hrun & Hf & Hv).
  exists w'. split; [done|]. split; [|split; [|done]].
  - intros i j Hir Hjr. rewrite Hv by done. by rewrite decide_True by nia.
  - eapply holds_frame; [done| |done]. intros k Hk. by eapply disjoint_not_within.
Qed.

Lemma remove_mean_col_in_place_scenario :
  ∃ w',
    remove_mean_col (Ptr 1 0) (Ptr 2 0) (Ptr 1 0) 3 2 scenario = Ok tt w' ∧
    (∀ i j, 0 ≤ i < 3 → 0 ≤ j < 2 →
       rd (mem w') (Ptr 1 0 +ₚ (i * 2 + j)) =
         Some (PrimFloat.sub (elements [1; 2; 3; 4; 5; 6]%float (i * 2 + j))
                 (elements [3; 4]%float j))) ∧
    holds w' (Ptr 2 0) 2 (elements [3; 4]%float) ∧
    frame (within (Ptr 1 0) (3 * 2)) scenario w'.
Proof.
  apply (remove_mean_col_in_place (Ptr 1 0) (Ptr 2 0) 3 2
           (elements [1; 2; 3; 4; 5; 6]%float) (elements [3; 4]%float) scenario);
    [lia | lia | small | object | object | apart].
Defined.


(** ** randn_mtx *)

Section randn_mtx_correct.
Variable RAND_MAX : Z.
Variables log cos : double → double.

(** The value [randn] makes of the draw [r]. *)
Definition randn_value (r : Z) : double :=
  let u := PrimFloat.div (of_int r) (of_int RAND_MAX) in
  PrimFloat.mul (PrimFloat.sqrt (PrimFloat.mul (-2)%float (log u)))
                (cos (PrimFloat.mul Twopi u)).

Lemma wp_randn w (Q : double → world → Prop) :
  Q (randn_value (rng w (drawn w)))
    (World (mem w) (trace w) (out w) (rng w) (S (drawn w))) →
  wp (randn RAND_MAX log cos) w Q.
Proof. intros HQ. exact HQ. Qed.

Variables (mtx : ptr) (dim_i dim_j : Z) (w0 : world).
Hypothesis Hi : 0 ≤ dim_i.
Hypothesis Hj : 0 ≤ dim_j.
Hypothesis Hsize : dim_i * dim_j ≤ INT_MAX.
Hypothesis Hm : allocated w0 mtx (dim_i * dim_j).

(** The first [n] elements are filled, from the first [n] draws. *)
Definition filled (n : Z) (w : world) : Prop :=
  (∀ k, 0 ≤ k < n →
     rd (mem w) (mtx +ₚ k) = Some (randn_value (rng w0 (drawn w0 + Z.to_nat k)%nat))) ∧
  drawn w = (drawn w0 + Z.to_nat n)%nat ∧
  rng w = rng w0 ∧
  (∀ q, ¬ within mtx (dim_i * dim_j) q → rd (mem w) q = rd (mem w0) q) ∧
  (∀ q, is_Some (rd (mem w) q) ↔ is_Some (rd (mem w0) q)) ∧
  out w = out w0.

Lemma randn_mtx_full :
  wp (randn_mtx RAND_MAX log cos mtx dim_i dim_j) w0 (λ _, filled (dim_i * dim_j)).
Proof.
  unfold randn_mtx, imul, iadd.
  apply (wp_for_lt (λ i, filled (i * dim_j))); [done| | |done].
  - split; [intros; lia|]. split; [simpl; lia|done].
  - intros i w Hir Hw. apply (wp_for_lt (λ j, filled (i * dim_j + j))); [done| | |].
    + by replace (i * dim_j + 0) with (i * dim_j) by lia.
    + clear w Hw. intros j w Hjr (Hv & Hd & Hr & Hf & Hal & Ho).
      assert (0 ≤ i * dim_j + j < dim_i * dim_j) as Hk by nia.
      assert (is_Some (rd (mem w) (mtx +ₚ (i * dim_j + j)))) as Hs by by apply Hal, Hm.
      apply wp_bind, wp_randn.
      apply wp_bind, wp_int_val; [unfold in_int, INT_MIN; nia|].
      apply wp_bind, wp_int_val; [unfold in_int, INT_MIN; lia|].
      apply wp_store; [done|]. unfold filled. simpl.
      split; [|split; [|split; [|split; [|split]]]].
      * intros k Hkr. destruct (decide (k = i * dim_j + j)) as [->|Hne].
        -- rewrite rd_upd_eq by done. by rewrite Hr, Hd.
        -- rewrite rd_upd_ne; [apply Hv; lia|done|by apply padd_ne].
      * lia.
      * done.
      * intros q Hq. rewrite rd_upd_ne; [by apply Hf|done|].
        intros ->. apply Hq. by eexists.
      * intros q. by rewrite rd_upd_is_Some.
      * done.
    + intros w'. by replace (i * dim_j + dim_j) with ((i + 1) * dim_j) by lia.
Qed.
End randn_mtx_correct.

(** X5. [randn_mtx] fills the matrix in row-major order from consecutive
    draws: it returns with element [i*dim_j + j] holding the [randn] value of
    draw number [i*dim_j + j] after those already made, having taken exactly
    [dim_i * dim_j] values from the pseudo-random stream, written nothing
    outside the matrix and printed nothing. *)
Theorem randn_mtx_row_major RAND_MAX (log cos : double → double) mtx dim_i dim_j w :
  0 ≤ dim_i → 0 ≤ dim_j → dim_i * dim_j ≤ INT_MAX →
  allocated w mtx (dim_i * dim_j) →
  ∃ w',
    randn_mtx RAND_MAX log cos mtx dim_i dim_j w = Ok tt w' ∧
    (∀ i j, 0 ≤ i < dim_i → 0 ≤ j < dim_j →
       let u := PrimFloat.div (of_int (rng w (drawn w + Z.to_nat (i * dim_j + j))%nat))
                              (of_int RAND_MAX) in
       rd (mem w') (mtx +ₚ (i * dim_j + j)) =
         Some (PrimFloat.mul (PrimFloat.sqrt (PrimFloat.mul (-2)%float (log u)))
                             (cos (PrimFloat.mul Twopi u)))) ∧
    drawn w' = (drawn w + Z.to_nat (dim_i * dim_j))%nat ∧
    rng w' = rng w ∧
    (∀ q, ¬ within mtx (dim_i * dim_j) q → rd (mem w') q = rd (mem w) q) ∧
    out w' = out w.
Proof.
  intros Hi Hj Hsize Hm.
  destruct (wp_returns _ _ _
    (randn_mtx_full RAND_MAX log cos mtx dim_i dim_j w Hi Hj Hsize Hm))
    as ([] & w' & Hrun & Hv & Hd & Hr & Hf & _ & Ho).
  exists w'. repeat (split; [done|]). split; [|done].
  intros i j Hir Hjr. apply Hv. nia.
Qed.

Lemma randn_mtx_row_major_scenario :
  ∃ w',
    randn_mtx 2147483647 (λ x, x) (λ x, x) (Ptr 1 0) 3 2 scenario = Ok tt w' ∧
    (∀ i j, 0 ≤ i < 3 → 0 ≤ j < 2 →
       let u := PrimFloat.div
                  (of_int (rng scenario (drawn scenario + Z.to_nat (i * 2 + j))%nat))
                  (of_int 2147483647) in
       rd (mem w') (Ptr 1 0 +ₚ (i * 2 + j)) =
         Some (PrimFloat.mul (PrimFloat.sqrt (PrimFloat.mul (-2)%float u))
                             (PrimFloat.mul Twopi u))) ∧
    drawn w' = (drawn scenario + Z.to_nat (3 * 2))%nat ∧
    rng w' = rng scenario ∧
    (∀ q, ¬ within (Ptr 1 0) (3 * 2) q → rd (mem w') q = rd (mem scenario) q) ∧
    out w' = out scenario.
Proof.
  apply (randn_mtx_row_major 2147483647 (λ x, x) (λ x, x) (Ptr 1 0) 3 2 scenario);
    [lia | lia | small | object].
Defined.


(** ** show_matrix *)

Lemma string_app_nil_r (s : string) : (s ++ "")%string = s.
Proof.
  induction s as [|c s IH]; [done|].
  change (String c (s ++ "") = String c s)%string. by rewrite IH.
Qed.

Lemma wp_putstr s w (Q : unit → world → Prop) :
  Q tt (World (mem w) (trace w) (out w ++ s) (rng w) (drawn w)) → wp (putstr s) w Q.
Proof. intros HQ. exact HQ. Qed.

Lemma wp_printf_2_5f x t w (Q : unit → world → Prop) :
  fmt_2_5f x = Some t →
  Q tt (World (mem w) (trace w) (out w ++ (t ++ " ")) (rng w) (drawn w)) →
  wp (printf_2_5f x) w Q.
Proof. intros Ht HQ. unfold wp, outcome, printf_2_5f. by rewrite Ht. Qed.

(** Every double but NaN has a ["%2.5f"] text. *)
Lemma fmt_2_5f_not_nan x : is_nan x = false → is_Some (fmt_2_5f x).
Proof.
  intros Hnan. unfold fmt_2_5f, Prim2SF. rewrite Hnan.
  destruct (is_zero x); [by eexists|]. destruct (is_infinity x); [by eexists|].
  destruct (Z.frexp x) as [r e]. destruct (shr_fexp _ _ _ _ _) as [sh e'].
  destruct (shr_m sh); by eexists.
Qed.

Section show_matrix_correct.
Variables (A : Z → double) (T : Z → string) (dim_j : Z).

(** The texts of the first [cols] elements of row [i], each followed by a
    space; [T k] is the text of the element at offset [k]. *)
Fixpoint row_text (i : Z) (cols : nat) : string :=
  match cols with
  | O => ""
  | S n => row_text i n ++ (T (i * dim_j + Z.of_nat n) ++ " ")
  end.

(** The first [rows] rows, each ended by a newline. *)
Fixpoint matrix_text (rows : nat) : string :=
  match rows with
  | O => ""
  | S n => matrix_text n ++ (row_text (Z.of_nat n) (Z.to_nat dim_j) ++ newline)
  end.

Variables (a : ptr) (dim_i : Z) (w0 : world).
Hypothesis Hi : 0 ≤ dim_i.
Hypothesis Hj : 0 ≤ dim_j.
Hypothesis Hsize : dim_i * dim_j ≤ INT_MAX.
Hypothesis Ha : holds w0 a (dim_i * dim_j) A.
Hypothesis HT : ∀ k, 0 ≤ k < dim_i * dim_j → fmt_2_5f (A k) = Some (T k).

(** Rows [0 .. i-1] and the first [j] elements of row [i] are printed. *)
Definition printing (i j : Z) (w : world) : Prop :=
  out w = (out w0 ++ (matrix_text (Z.to_nat i) ++ row_text i (Z.to_nat j)))%string ∧
  mem w = mem w0 ∧ rng w = rng w0 ∧ drawn w = drawn w0.

Lemma show_matrix_full :
  wp (show_matrix a dim_i dim_j) w0 (λ _, printing dim_i 0).
Proof.
  unfold show_matrix, imul, iadd.
  apply (wp_for_lt (λ i, printing i 0)); [done| | |done].
  - split; [|done]. simpl. by rewrite string_app_nil_r.
  - intros i w Hir Hw. apply wp_bind.
    apply (wp_for_lt (printing i)); [done|done| |].
    + clear w Hw. intros j w Hjr (Ho & Hm & Hr & Hd).
      assert (0 ≤ i * dim_j + j < dim_i * dim_j) as Hk by nia.
      apply wp_bind, wp_int_val; [unfold in_int, INT_MIN; nia|].
      apply wp_bind, wp_int_val; [unfold in_int, INT_MIN; lia|].
      apply wp_bind. eapply wp_load; [rewrite Hm; by apply Ha|].
      eapply wp_printf_2_5f; [by apply HT|].
      unfold printing. simpl. split; [|done].
      rewrite Ho. replace (Z.to_nat (j + 1)) with (S (Z.to_nat j)) by lia.
      simpl. rewrite Z2Nat.id by lia. by rewrite !string_app_assoc.
    + intros w' (Ho & Hm & Hr & Hd). apply wp_putstr.
      unfold printing. simpl. split; [|done].
      rewrite Ho. replace (Z.to_nat (i + 1)) with (S (Z.to_nat i)) by lia.
      simpl. rewrite Z2Nat.id by lia.
      by rewrite string_app_nil_r, !string_app_assoc.
Qed.
End show_matrix_correct.

(** X6. On a matrix with no NaN element, [show_matrix] prints the matrix
    row by row: every element has a ["%2.5f"] text [T k], and the call
    returns having appended to the standard output, for each row in order,
    the texts of its elements in order, each followed by one space, and then
    a newline.  It changes no memory cell and draws no random value. *)
Theorem show_matrix_rows a dim_i dim_j A w :
  0 ≤ dim_i → 0 ≤ dim_j → dim_i * dim_j ≤ INT_MAX →
  holds w a (dim_i * dim_j) A →
  (∀ k, 0 ≤ k < dim_i * dim_j → is_nan (A k) = false) →
  ∃ w' T,
    show_matrix a dim_i dim_j w = Ok tt w' ∧
    (∀ k, 0 ≤ k < dim_i * dim_j → fmt_2_5f (A k) = Some (T k)) ∧
    out w' = (out w ++ matrix_text T dim_j (Z.to_nat dim_i))%string ∧
    mem w' = mem w ∧ rng w' = rng w ∧ drawn w' = drawn w.
Proof.
  intros Hi Hj Hsize Ha Hnan.
  set (T := λ k, default EmptyString (fmt_2_5f (A k))).
  assert (∀ k, 0 ≤ k < dim_i * dim_j → fmt_2_5f (A k) = Some (T k)) as HT.
  { intros k Hk. unfold T. by destruct (fmt_2_5f_not_nan (A k) (Hnan k Hk)) as [t ->]. }
  destruct (wp_returns _ _ _ (show_matrix_full A T dim_j a dim_i w Hi Hj Hsize Ha HT))
    as ([] & w' & Hrun & Ho & Hrest).
  exists w', T. split; [done|]. split; [done|]. split; [|done].
  rewrite Ho. simpl. by rewrite string_app_nil_r.
Qed.

Lemma show_matrix_rows_scenario :
  ∃ w' T,
    show_matrix (Ptr 1 0) 3 2 scenario = Ok tt w' ∧
    (∀ k, 0 ≤ k < 3 * 2 →
       fmt_2_5f (elements [1; 2; 3; 4; 5; 6]%float k) = Some (T k)) ∧
    out w' = (out scenario ++ matrix_text T 2 (Z.to_nat 3))%string ∧
    mem w' = mem scenario ∧ rng w' = rng scenario ∧ drawn w' = drawn scenario.
Proof.
  apply (show_matrix_rows (Ptr 1 0) 3 2 (elements [1; 2; 3; 4; 5; 6]%float) scenario);
    [lia | lia | small | object |].
  intros k Hk.
  assert (k = 0 ∨ k = 1 ∨ k = 2 ∨ k = 3 ∨ k = 4 ∨ k = 5)
    as [-> | [-> | [-> | [-> | [-> | ->]]]]] by lia; vm_compute; reflexivity.
Defined.


(** ** Degenerate row counts *)

Lemma binary_round_aux_sign s m e l :
  match binary_round_aux prec emax s m e l with
  | S754_zero s' | S754_infinity s' | S754_finite s' _ _ => s' = s
  | S754_nan => True
  end.
Proof.
  unfold binary_round_aux.
  destruct (shr_fexp _ _ _ _ _) as [mrs' e'].
  destruct (shr_fexp _ _ _ _ _) as [mrs'' e''].
  destruct (shr_m mrs''); [done| |done]. by destruct (_ <=? _).
Qed.

(** A square root is never negative. *)
Lemma sqrt_not_negative x : PrimFloat.ltb (PrimFloat.sqrt x) PrimFloat.zero = false.
Proof.
  rewrite ltb_spec, sqrt_spec. change (Prim2SF PrimFloat.zero) with (S754_zero false).
  unfold SF64sqrt, SFsqrt. destruct (Prim2SF x) as [s|[]| |[] m e]; try done.
  destruct (SFsqrt_core_binary _ _ _ _) as [[mz ez] lz].
  pose proof (binary_round_aux_sign false mz ez lz) as Hs.
  by destruct (binary_round_aux _ _ _ _ _ _) as [? | ? | |? ? ?]; subst.
Qed.

(** Dividing by [(double) 0] and taking the square root leaves no finite
    value: NaN or +infinity. *)
Lemma sqrt_div_zero_not_finite x :
  is_finite (PrimFloat.sqrt (PrimFloat.div x (of_int 0))) = false.
Proof.
  rewrite <- (SF2Prim_Prim2SF (PrimFloat.sqrt _)), sqrt_spec, div_spec.
  change (Prim2SF (of_int 0)) with (S754_zero false).
  by destruct (Prim2SF x) as [s|[]| |[] m e].
Qed.

Section stat_mean_no_rows.
Variables (a mean : ptr) (dim_j : Z) (w0 : world).
Hypothesis Hj : 0 ≤ dim_j.
Hypothesis Hm : allocated w0 mean dim_j.

Let R := within mean dim_j.

Lemma stat_mean_no_rows_full :
  wp (stat_mean a mean 0 dim_j) w0 (λ _ w,
    frame R w0 w ∧ touches_only R w0 w ∧
    ∀ j, 0 ≤ j < dim_j → rd (mem w) (mean +ₚ j) = Some PrimFloat.nan).
Proof.
  unfold stat_mean. apply wp_bind.
  apply (wp_for_lt (λ j w, frame R w0 w ∧ touches_only R w0 w ∧
    ∀ j', 0 ≤ j' < j → rd (mem w) (mean +ₚ j') = Some PrimFloat.zero)); [done| | |].
  - split; [apply frame_refl|]. split; [apply touches_only_refl|]. intros; lia.
  - intros j w Hjr (Hf & Ht & Hz).
    assert (is_Some (rd (mem w) (mean +ₚ j))) as Hs by (apply Hf; auto).
    apply wp_store; [done|]. split; [|split].
    + apply frame_store; [done|by exists j|done].
    + apply touches_only_store; [done|by exists j].
    + simpl. intros j' Hj'. destruct (decide (j' = j)) as [->|Hne].
      * by rewrite rd_upd_eq.
      * rewrite rd_upd_ne; [apply Hz; lia|done|by apply padd_ne].
  - intros w1 (Hf1 & Ht1 & Hz1). apply wp_bind, wp_ret.
    apply (wp_for_lt (λ j w, frame R w0 w ∧ touches_only R w0 w ∧
      ∀ j', 0 ≤ j' < dim_j → rd (mem w) (mean +ₚ j') =
        Some (if decide (j' < j) then PrimFloat.nan else PrimFloat.zero))); [done| | |].
    + split; [done|]. split; [done|]. intros j' Hj'.
      rewrite decide_False by lia. by apply Hz1.
    + clear w1 Hf1 Ht1 Hz1. intros j w Hjr (Hf & Ht & Hv).
      assert (is_Some (rd (mem w) (mean +ₚ j))) as Hs by (apply Hf; auto).
      apply wp_bind. eapply wp_load; [by apply Hv|].
      rewrite decide_False by lia.
      apply wp_store; [done|]. split; [|split].
      * apply frame_store; [by apply frame_load|by exists j|done].
      * apply touches_only_store; [|by exists j].
        apply touches_only_log; [done|by exists j].
      * simpl. intros j' Hj'. destruct (decide (j' = j)) as [->|Hne].
        -- rewrite rd_upd_eq by done. by rewrite decide_True by lia.
        -- rewrite rd_upd_ne; [|done|by apply padd_ne].
           rewrite Hv by done. repeat case_decide; try done; lia.
    + intros w (Hf & Ht & Hv). split; [done|]. split; [done|].
      intros j Hjr. by rewrite Hv, decide_True by lia.
Qed.
End stat_mean_no_rows.

(** X7. With [dim_i = 0], [stat_mean] divides zero sums by zero: it returns
    with NaN in every [mean[j]], and it touches the mean vector only (the
    matrix pointer is never dereferenced). *)
Theorem stat_mean_no_rows a mean dim_j w :
  0 ≤ dim_j →
  allocated w mean dim_j →
  ∃ w',
    stat_mean a mean 0 dim_j w = Ok tt w' ∧
    (∀ j, 0 ≤ j < dim_j → rd (mem w') (mean +ₚ j) = Some PrimFloat.nan) ∧
    touches_only (within mean dim_j) w w' ∧
    frame (within mean dim_j) w w'.
Proof.
  intros Hj Hm.
  destruct (wp_returns _ _ _ (stat_mean_no_rows_full a mean dim_j w Hj Hm))
    as ([] & w' & Hrun & Hf & Ht & Hv).
  by exists w'.
Qed.

Lemma stat_mean_no_rows_scenario :
  ∃ w',
    stat_mean (Ptr 1 0) (Ptr 2 0) 0 2 scenario = Ok tt w' ∧
    (∀ j, 0 ≤ j < 2 → rd (mem w') (Ptr 2 0 +ₚ j) = Some PrimFloat.nan) ∧
    touches_only (within (Ptr 2 0) 2) scenario w' ∧
    frame (within (Ptr 2 0) 2) scenario w'.
Proof.
  apply (stat_mean_no_rows (Ptr 1 0) (Ptr 2 0) 2 scenario); [lia | object].
Defined.

(** X8. With a single row ([dim_i = 1]) the divisor [dim_i - 1] of
    [stat_std] is zero: the call returns, and no [std[j]] is a finite
    number (each is NaN or infinite). *)
Theorem stat_std_single_row a mean std dim_j A Mn w :
  1 ≤ dim_j → dim_j ≤ INT_MAX →
  holds w a dim_j A →
  holds w mean dim_j Mn →
  allocated w std dim_j →
  disjoint a dim_j std dim_j →
  disjoint mean dim_j std dim_j →
  ∃ w',
    stat_std a mean std 1 dim_j w = Ok tt w' ∧
    ∀ j, 0 ≤ j < dim_j →
      ∃ s, rd (mem w') (std +ₚ j) = Some s ∧ is_finite s = false.
Proof.
  intros Hj Hsize Ha Hm Hs Hda Hdm.
  destruct (wp_returns _ _ _
    (stat_std_full a mean std 1 dim_j A Mn w ltac:(lia) Hj ltac:(lia)
       ltac:(by rewrite Z.mul_1_l) Hm Hs ltac:(by rewrite Z.mul_1_l) Hdm))
    as ([] & w' & Hrun & _ & Hv).
  exists w'. split; [done|]. intros j Hjr. eexists. split; [by apply Hv|].
  apply sqrt_div_zero_not_finite.
Qed.

Lemma stat_std_single_row_scenario :
  ∃ w',
    stat_std (Ptr 1 0) (Ptr 2 0) (Ptr 3 0) 1 2 scenario = Ok tt w' ∧
    ∀ j, 0 ≤ j < 2 →
      ∃ s, rd (mem w') (Ptr 3 0 +ₚ j) = Some s ∧ is_finite s = false.
Proof.
  apply (stat_std_single_row (Ptr 1 0) (Ptr 2 0) (Ptr 3 0) 2
           (elements [1; 2; 3; 4; 5; 6]%float) (elements [3; 4]%float) scenario);
    [lia | small | object | object | object | apart | apart].
Defined.

(** X9. Whatever the matrix and the mean vector hold, no deviation that
    [stat_std] returns is negative: [std[j] < 0] is false for every column
    (the value is a square root: positive, zero, +infinity or NaN). *)
Theorem stat_std_not_negative a mean std dim_i dim_j A Mn w :
  1 ≤ dim_i → 1 ≤ dim_j → dim_i * dim_j ≤ INT_MAX →
  holds w a (dim_i * dim_j) A →
  holds w mean dim_j Mn →
  allocated w std dim_j →
  disjoint a (dim_i * dim_j) std dim_j →
  disjoint mean dim_j std dim_j →
  ∃ w',
    stat_std a mean std dim_i dim_j w = Ok tt w' ∧
    ∀ j, 0 ≤ j < dim_j →
      ∃ s, rd (mem w') (std +ₚ j) = Some s ∧ PrimFloat.ltb s PrimFloat.zero = false.
Proof.
  intros Hi Hj Hsize Ha Hm Hs Hda Hdm.
  destruct (wp_returns _ _ _
    (stat_std_full a mean std dim_i dim_j A Mn w Hi Hj Hsize Ha Hm Hs Hda Hdm))
    as ([] & w' & Hrun & _ & Hv).
  exists w'. split; [done|]. intros j Hjr. eexists. split; [by apply Hv|].
  apply sqrt_not_negative.
Qed.

Lemma stat_std_not_negative_scenario :
  ∃ w',
    stat_std (Ptr 1 0) (Ptr 2 0) (Ptr 3 0) 3 2 scenario = Ok tt w' ∧
    ∀ j, 0 ≤ j < 2 →
      ∃ s, rd (mem w') (Ptr 3 0 +ₚ j) = Some s ∧ PrimFloat.ltb s PrimFloat.zero = false.
Proof.
  apply (stat_std_not_negative (Ptr 1 0) (Ptr 2 0) (Ptr 3 0) 3 2
           (elements [1; 2; 3; 4; 5; 6]%float) (elements [3; 4]%float) scenario);
    [lia | lia | small | object | object | object | apart | apart].
Defined.

(** ** Means, then deviations *)

(** X10. [stat_mean] followed by [stat_std] on the mean vector it filled
    computes the sample deviation around the computed means: afterwards
    [mean[j]] is the column mean, [std[j]] the square root of the sum of
    [(a[i*dim_j + j] - mean[j])^2] over the rows divided by [dim_i - 1], and
    the matrix is unchanged. *)
Theorem stat_mean_then_stat_std a mean std dim_i dim_j A w :
  1 ≤ dim_i → 1 ≤ dim_j → dim_i * dim_j ≤ INT_MAX →
  holds w a (dim_i * dim_j) A →
  allocated w mean dim_j →
  allocated w std dim_j →
  disjoint a (dim_i * dim_j) mean dim_j →
  disjoint a (dim_i * dim_j) std dim_j →
  disjoint mean dim_j std dim_j →
  ∃ w',
    (stat_mean a mean dim_i dim_j ;; stat_std a mean std dim_i dim_j) w = Ok tt w' ∧
    let m j := PrimFloat.div (col_sum A dim_j j (Z.to_nat dim_i)) (of_int dim_i) in
    holds w' mean dim_j m ∧
    holds w' std dim_j
      (λ j, PrimFloat.sqrt
              (PrimFloat.div (col_sqsum A dim_j m j (Z.to_nat dim_i)) (of_int (dim_i - 1)))) ∧
    holds w' a (dim_i * dim_j) A.
Proof.
  intros Hi Hj Hsize Ha Hm Hs Ham Has Hms.
  assert (wp (stat_mean a mean dim_i dim_j ;; stat_std a mean std dim_i dim_j) w (λ _ w',
    holds w' mean dim_j (col_mean A dim_j dim_i) ∧
    holds w' std dim_j (col_std A dim_j (col_mean A dim_j dim_i) dim_i) ∧
    holds w' a (dim_i * dim_j) A)) as Hwp.
  { apply wp_bind.
    eapply wp_mono; [by apply (stat_mean_full a mean dim_i dim_j A w)|].
    intros [] w1 (Hf1 & Hv1 & _).
    assert (holds w1 a (dim_i * dim_j) A) as Ha1.
    { eapply holds_frame; [done| |done]. intros k Hk. by eapply disjoint_not_within. }
    eapply wp_mono.
    - apply (stat_std_full a mean std dim_i dim_j A (col_mean A dim_j dim_i) w1);
        try done. intros k Hk. apply Hf1. by apply Hs.
    - intros [] w2 (Hf2 & Hv2). split; [|split; [done|]].
      + eapply holds_frame; [done| |done]. intros k Hk. by eapply disjoint_not_within.
      + eapply holds_frame; [done| |done]. intros k Hk. by eapply disjoint_not_within. }
  destruct (wp_returns _ _ _ Hwp) as ([] & w' & Hrun & Hrest).
  by exists w'.
Qed.

Lemma stat_mean_then_stat_std_scenario :
  ∃ w',
    (stat_mean (Ptr 1 0) (Ptr 2 0) 3 2 ;; stat_std (Ptr 1 0) (Ptr 2 0) (Ptr 3 0) 3 2)
      scenario = Ok tt w' ∧
    let m j := PrimFloat.div
                 (col_sum (elements [1; 2; 3; 4; 5; 6]%float) 2 j (Z.to_nat 3)) (of_int 3) in
    holds w' (Ptr 2 0) 2 m ∧
    holds w' (Ptr 3 0) 2
      (λ j, PrimFloat.sqrt
              (PrimFloat.div
                 (col_sqsum (elements [1; 2; 3; 4; 5; 6]%float) 2 m j (Z.to_nat 3))
                 (of_int (3 - 1)))) ∧
    holds w' (Ptr 1 0) (3 * 2) (elements [1; 2; 3; 4; 5; 6]%float).
Proof.
  apply (stat_mean_then_stat_std (Ptr 1 0) (Ptr 2 0) (Ptr 3 0) 3 2
           (elements [1; 2; 3; 4; 5; 6]%float) scenario);
    [lia | lia | small | object | object | object | apart | apart | apart].
Defined.

(** ** Empty matrices *)

Lemma for_aux_skip n lo (body : Z → M unit) w :
  (∀ i w', body i w' = Ok tt w') → for_aux n lo body w = Ok tt w.
Proof.
  intros Hbody. revert lo. induction n as [|n IH]; intros lo; [done|].
  simpl. unfold mbind, M_bind. by rewrite Hbody.
Qed.

Lemma for_lt_none hi (body : Z → M unit) w : hi ≤ 0 → for_lt hi body w = Ok tt w.
Proof. intros Hhi. unfold for_lt. by replace (Z.to_nat hi) with O by lia. Qed.

Lemma seq_skip (c k : M unit) w :
  c w = Ok tt w → k w = Ok tt w → (c ;; k) w = Ok tt w.
Proof. intros Hc Hk. unfold mbind, M_bind. by rewrite Hc. Qed.

Lemma for_lt_nested_none dim_i dim_j (body : Z → Z → M unit) w :
  dim_i ≤ 0 ∨ dim_j ≤ 0 →
  for_lt dim_i (λ i, for_lt dim_j (body i)) w = Ok tt w.
Proof.
  intros [Hi|Hj]; [by apply for_lt_none|].
  apply for_aux_skip. intros i w'. by apply for_lt_none.
Qed.

(** X11. A matrix with no element is left alone.  When [dim_i <= 0] or
    [dim_j <= 0], [remove_mean_col], [modify_mean_stddev] and [randn_mtx]
    return at once with the state as it was: no access, no draw, whatever
    the pointers.  With [dim_j = 0] so do [stat_mean] and [stat_std]. *)
Theorem empty_matrix_untouched RAND_MAX (log cos : double → double)
    a mean std b (new_mean new_stddev : double) dim_i dim_j w :
  dim_i ≤ 0 ∨ dim_j ≤ 0 →
  remove_mean_col a mean b dim_i dim_j w = Ok tt w ∧
  modify_mean_stddev a new_mean new_stddev dim_i dim_j w = Ok tt w ∧
  randn_mtx RAND_MAX log cos a dim_i dim_j w = Ok tt w ∧
  (dim_j = 0 →
     stat_mean a mean dim_i dim_j w = Ok tt w ∧
     stat_std a mean std dim_i dim_j w = Ok tt w).
Proof.
  intros Hdim. repeat (split; [by apply for_lt_nested_none|]).
  intros ->.
  assert (∀ (body : Z → Z → M unit) w',
    for_lt dim_i (λ i, n ← imul i 0; for_lt 0 (body n)) w' = Ok tt w') as Hrows.
  { intros body w'. apply for_aux_skip. intros i w''.
    unfold imul, int_val, mbind, M_bind. rewrite Z.mul_0_r. reflexivity. }
  split.
  - unfold stat_mean. apply seq_skip; [by apply for_lt_none|].
    apply seq_skip; [apply Hrows|by apply for_lt_none].
  - unfold stat_std. apply seq_skip; [by apply for_lt_none|].
    apply seq_skip; [apply Hrows|by apply for_lt_none].
Qed.

Lemma empty_matrix_untouched_3x0 :
  remove_mean_col (Ptr 1 0) (Ptr 2 0) (Ptr 4 0) 3 0 scenario = Ok tt scenario ∧
  modify_mean_stddev (Ptr 1 0) 1 10 3 0 scenario = Ok tt scenario ∧
  randn_mtx 2147483647 (λ x, x) (λ x, x) (Ptr 1 0) 3 0 scenario = Ok tt scenario ∧
  stat_mean (Ptr 1 0) (Ptr 2 0) 3 0 scenario = Ok tt scenario ∧
  stat_std (Ptr 1 0) (Ptr 2 0) (Ptr 3 0) 3 0 scenario = Ok tt scenario.
Proof.
  destruct (empty_matrix_untouched 2147483647 (λ x, x) (λ x, x)
              (Ptr 1 0) (Ptr 2 0) (Ptr 3 0) (Ptr 4 0) 1 10 3 0 scenario
              ltac:(right; lia)) as (H1 & H2 & H3 & H4).
  destruct (H4 eq_refl) as [H5 H6].
  exact (conj H1 (conj H2 (conj H3 (conj H5 H6)))).
Defined.
